(** * Frequency-based range queries: a shallow embedding of [solution.js]

    The development models the segment tree of [solution.js]
    ([createNode], [buildSegmentTree], [queryRange]), the batch entry point
    [frequencyBasedQueries] and the direct-counting sibling
    [optimizedFrequencyBasedQueries], and states the properties of the
    specification over these definitions.

    Modelling conventions.
    - Array elements, indices, ranks and counts are JavaScript numbers that
      hold integers; they are modelled by [Z].
    - A JavaScript object used as a frequency table is a [gmap Z Z].  The
      source keys the object by [String(element)] and reads the keys back
      with [Number] (or compares them with numbers, which converts them);
      on integers this round trip is the identity, so the keys are kept as
      [Z].  The enumeration order of the object is not modelled: every
      enumeration either accumulates sums per key or is followed by a sort
      whose comparator is a total order on the keys, so the order cannot
      be observed (see [frequencySort_unique]).
    - [undefined] is a value of its own ([Undefined]); thrown exceptions are
      the left summand of [error + A]. *)

From stdpp Require Import gmap list sorting.
From Stdlib Require Import ZArith Lia.

Local Open Scope Z_scope.

(** * Part I: the program *)

(** ** Values, errors and the error monad *)

Inductive value : Type :=
| Num (z : Z)
| Undefined.

Global Instance value_eq_dec : EqDecision value.
Proof. solve_decision. Defined.

(** The exceptions the program can throw.  The first four are the
    [new Error(...)] of the entry points; [TypeError] is a property read on
    [null]; [RangeError] is the exhaustion of the call stack by an unbounded
    recursion. *)
Inductive error : Type :=
| EmptyInput
| InvalidRange (left right : Z)
| InvalidK (k : Z)
| KExceedsDistinct (k distinctElements left right : Z)
| TypeError
| RangeError.

Definition bind {A B : Type} (c : error + A) (f : A -> error + B) : error + B :=
  match c with
  | inl e => inl e
  | inr a => f a
  end.

Notation "'try' x := c 'in' k" := (bind c (fun x => k))
  (at level 10, x name, c at level 100, k at level 200).

(** ** Arrays and frequency tables *)

(** [arr[i]].  Every read made by the program is within bounds: the tree
    is built over indices [0 <= start <= end_ < arr.length] (first clause
    of [nodeInvariant]) and the direct count reads a validated range.
    Outside of them the source would read [undefined], which the model
    does not represent as an element. *)
Definition arrayGet (arr : list Z) (i : Z) : Z :=
  default 0 (arr !! Z.to_nat i).

(** [arr.slice(from, to)] for [0 <= from], the only way the program calls
    it. *)
Definition slice (arr : list Z) (from to : Z) : list Z :=
  take (Z.to_nat (to - from)) (drop (Z.to_nat from) arr).

(** [table[element] || 0]. *)
Definition frequencyOf (table : gmap Z Z) (element : Z) : Z :=
  default 0 (table !! element).

(** [table[element] = (table[element] || 0) + frequency]. *)
Definition addFrequency (table : gmap Z Z) (element frequency : Z) : gmap Z Z :=
  <[element := frequencyOf table element + frequency]> table.

(** [for (const [element, frequency] of Object.entries(source))
       table[element] = (table[element] || 0) + frequency;] *)
Definition mergeInto (source table : gmap Z Z) : gmap Z Z :=
  foldl (fun acc '(element, frequency) => addFrequency acc element frequency)
        table (map_to_list source).

(** The same loop with the guard of [queryRange]:
    [if (element >= left && element <= right)]. *)
Definition mergeInRange (left right : Z) (source table : gmap Z Z) : gmap Z Z :=
  foldl (fun acc '(element, frequency) =>
           if (left <=? element) && (element <=? right)
           then addFrequency acc element frequency else acc)
        table (map_to_list source).

(** The comparator of the three [sort] calls:
    [(a, b) => { const freqDiff = table[b] - table[a];
                 return freqDiff !== 0 ? freqDiff : a - b; }].
    It is only applied to keys of [table]. *)
Definition compareByFrequency (table : gmap Z Z) (a b : Z) : Z :=
  let freqDiff := frequencyOf table b - frequencyOf table a in
  if decide (freqDiff <> 0) then freqDiff else a - b.

(** [a] may stand before [b] in the sorted array. *)
Definition rankedBefore (table : gmap Z Z) (a b : Z) : Prop :=
  compareByFrequency table a b <= 0.

Global Instance rankedBefore_dec table a b : Decision (rankedBefore table a b).
Proof. unfold rankedBefore. apply _. Defined.

(** [Object.keys(table).map(Number).sort(comparator)].  [Array.prototype.sort]
    is modelled by a merge sort; on the keys of a table the comparator is a
    total order without ties, which leaves one possible outcome. *)
Definition frequencySort (table : gmap Z Z) : list Z :=
  merge_sort (rankedBefore table) (map_to_list table).*1.

(** ** The segment tree *)

#[warnings="-register-all"]
Inductive node : Type := mkNode {
  node_start : Z;
  node_end : Z;
  node_frequencyMap : gmap Z Z;
  node_frequencySorted : list Z;
  node_left : option node;
  node_right : option node
}.

Definition createNode (start end_ : Z) : node :=
  mkNode start end_ ∅ [] None None.

(** Assignments to the fields of a node. *)
Definition setFrequencyMap (n : node) (frequencyMap : gmap Z Z) : node :=
  mkNode (node_start n) (node_end n) frequencyMap (node_frequencySorted n)
         (node_left n) (node_right n).

Definition setFrequencySorted (n : node) (frequencySorted : list Z) : node :=
  mkNode (node_start n) (node_end n) (node_frequencyMap n) frequencySorted
         (node_left n) (node_right n).

Definition setLeft (n : node) (child : option node) : node :=
  mkNode (node_start n) (node_end n) (node_frequencyMap n)
         (node_frequencySorted n) child (node_right n).

Definition setRight (n : node) (child : option node) : node :=
  mkNode (node_start n) (node_end n) (node_frequencyMap n)
         (node_frequencySorted n) (node_left n) child.

(** [buildSegmentTree] recurses on index ranges; [depth] bounds the depth of
    the recursion, and running out of it is the [RangeError] of an
    exhausted call stack. *)
Fixpoint buildSegmentTree_depth (depth : nat) (arr : list Z) (start end_ : Z)
  : error + node :=
  match depth with
  | O => inl RangeError
  | S depth' =>
      let node := createNode start end_ in
      if decide (start = end_) then
        let node :=
          setFrequencyMap node
            (<[arrayGet arr start := 1]> (node_frequencyMap node)) in
        let node := setFrequencySorted node [arrayGet arr start] in
        inr node
      else
        let mid := (start + end_) `div` 2 in
        try l := buildSegmentTree_depth depth' arr start mid in
        let node := setLeft node (Some l) in
        try r := buildSegmentTree_depth depth' arr (mid + 1) end_ in
        let node := setRight node (Some r) in
        let mergedFrequencyMap :=
          mergeInto (node_frequencyMap r) (mergeInto (node_frequencyMap l) ∅) in
        let node := setFrequencyMap node mergedFrequencyMap in
        let node := setFrequencySorted node (frequencySort mergedFrequencyMap) in
        inr node
  end.

(** With [start <= end_] the recursion is at most [end_ - start + 1] deep
    ([buildSegmentTree_depth_enough]); with [end_ < start] it never reaches
    a leaf ([buildSegmentTree_depth_overflow]), and the source overflows
    the stack. *)
Definition buildSegmentTree (arr : list Z) (start end_ : Z) : error + node :=
  buildSegmentTree_depth (Z.to_nat (end_ - start + 1)) arr start end_.

(** ** Queries *)

Record queryResult : Type := mkResult {
  element : value;
  frequency : value
}.

(** [{ element: -1, frequency: 0 }]. *)
Definition noSuchRank : queryResult := mkResult (Num (-1)) (Num 0).

(** [array[i]] on an array of numbers. *)
Definition index (array : list Z) (i : Z) : value :=
  if decide (i < 0) then Undefined
  else match array !! Z.to_nat i with
       | Some x => Num x
       | None => Undefined
       end.

(** [table[element]]. *)
Definition lookupFrequency (table : gmap Z Z) (element : value) : value :=
  match element with
  | Num x => match table !! x with
             | Some c => Num c
             | None => Undefined
             end
  | Undefined => Undefined
  end.

(** The tail shared by the two answering branches of [queryRange]:
    [if (k > sorted.length) return { element: -1, frequency: 0 };
     const element = sorted[k - 1];
     return { element, frequency: table[element] };] *)
Definition selectRank (sorted : list Z) (table : gmap Z Z) (k : Z) : queryResult :=
  if decide (Z.of_nat (length sorted) < k) then noSuchRank
  else mkResult (index sorted (k - 1)) (lookupFrequency table (index sorted (k - 1))).

(** What one child adds to [rangeFrequencyMap] in the partial-overlap case:
    [if (childResult.element !== -1)
       for (const [element, frequency] of Object.entries(child.frequencyMap))
         if (element >= left && element <= right) ...]. *)
Definition childContribution (child : node) (childResult : queryResult)
    (left right : Z) (rangeFrequencyMap : gmap Z Z) : gmap Z Z :=
  if decide (element childResult <> Num (-1))
  then mergeInRange left right (node_frequencyMap child) rangeFrequencyMap
  else rangeFrequencyMap.

Fixpoint queryRange (n : node) (left right k : Z) : error + queryResult :=
  match n with
  | mkNode start end_ frequencyMap frequencySorted nleft nright =>
      if decide (left <= start /\ end_ <= right) then
        inr (selectRank frequencySorted frequencyMap k)
      else if decide (end_ < left \/ right < start) then
        inr noSuchRank
      else
        let mid := (start + end_) `div` 2 in
        try afterLeft :=
          (if decide (left <= mid) then
             match nleft with
             | None => inl TypeError
             | Some child =>
                 try leftResult := queryRange child left (Z.min right mid) 1 in
                 inr (childContribution child leftResult left right ∅)
             end
           else inr ∅) in
        try rangeFrequencyMap :=
          (if decide (mid < right) then
             match nright with
             | None => inl TypeError
             | Some child =>
                 try rightResult := queryRange child (Z.max left (mid + 1)) right 1 in
                 inr (childContribution child rightResult left right afterLeft)
             end
           else inr afterLeft) in
        inr (selectRank (frequencySort rangeFrequencyMap) rangeFrequencyMap k)
  end.

(** ** The two entry points *)

Definition query : Type := Z * Z * Z.

(** [new Set(arr.slice(left, right + 1)).size]. *)
Definition distinctInRange (arr : list Z) (left right : Z) : Z :=
  Z.of_nat (size (list_to_set (slice arr left (right + 1)) : gset Z)).

(** The body of [for (const [left, right, k] of queries)] in
    [frequencyBasedQueries], with [results] as the array built so far. *)
Fixpoint answerQueries (arr : list Z) (root : node) (queries : list query)
    (results : list value) : error + list value :=
  match queries with
  | [] => inr results
  | q :: rest =>
      let left := q.1.1 in
      let right := q.1.2 in
      let k := q.2 in
      if decide (left < 0 \/ Z.of_nat (length arr) <= right \/ right < left) then
        inl (InvalidRange left right)
      else if decide (k <= 0) then
        inl (InvalidK k)
      else
        let distinctElements := distinctInRange arr left right in
        if decide (distinctElements < k) then
          inl (KExceedsDistinct k distinctElements left right)
        else
          try result := queryRange root left right k in
          answerQueries arr root rest (results ++ [element result])
  end.

Definition frequencyBasedQueries (arr : list Z) (queries : list query)
  : error + list value :=
  if decide (length arr = 0%nat) then inl EmptyInput
  else
    try root := buildSegmentTree arr 0 (Z.of_nat (length arr) - 1) in
    answerQueries arr root queries [].

(** [for (let i = left; i <= right; i++)
       frequencyMap[arr[i]] = (frequencyMap[arr[i]] || 0) + 1;] *)
Definition countRange (arr : list Z) (left right : Z) : gmap Z Z :=
  foldl (fun frequencyMap i => addFrequency frequencyMap (arrayGet arr i) 1)
        ∅ (seqZ left (right - left + 1)).

Fixpoint answerDirectly (arr : list Z) (queries : list query)
    (results : list value) : error + list value :=
  match queries with
  | [] => inr results
  | q :: rest =>
      let left := q.1.1 in
      let right := q.1.2 in
      let k := q.2 in
      if decide (left < 0 \/ Z.of_nat (length arr) <= right \/ right < left) then
        inl (InvalidRange left right)
      else if decide (k <= 0) then
        inl (InvalidK k)
      else
        let frequencyMap := countRange arr left right in
        let distinctElements := Z.of_nat (length (map_to_list frequencyMap).*1) in
        if decide (distinctElements < k) then
          inl (KExceedsDistinct k distinctElements left right)
        else
          let sortedElements := frequencySort frequencyMap in
          answerDirectly arr rest (results ++ [index sortedElements (k - 1)])
  end.

Definition optimizedFrequencyBasedQueries (arr : list Z) (queries : list query)
  : error + list value :=
  if decide (length arr = 0%nat) then inl EmptyInput
  else answerDirectly arr queries [].

(** * Part II: the notions of the specification *)

(** The number of positions of [l] that hold [v]. *)
Definition occurrences (v : Z) (l : list Z) : Z :=
  Z.of_nat (length (filter (eq v) l)).

(** [table] maps the values of [l], and no others, to their number of
    occurrences in [l]. *)
Definition tableOf (l : list Z) (table : gmap Z Z) : Prop :=
  forall v, table !! v = if decide (v ∈ l) then Some (occurrences v l) else None.

(** The sum of the counts of a table. *)
Definition sumOfCounts (table : gmap Z Z) : Z :=
  map_fold (fun _ count acc => count + acc) 0 table.

(** [a] ranks no later than [b] by number of occurrences in [l], larger
    count first and smaller value first among equal counts. *)
Definition outranks (l : list Z) (a b : Z) : Prop :=
  occurrences b l < occurrences a l \/
  (occurrences a l = occurrences b l /\ a <= b).

(** [a] ranks strictly before [b]. *)
Definition strictlyOutranks (l : list Z) (a b : Z) : Prop :=
  occurrences b l < occurrences a l \/
  (occurrences a l = occurrences b l /\ a < b).

(** The number of distinct values among [arr[left..right]]. *)
Definition distinctCount (arr : list Z) (left right : Z) : Z :=
  Z.of_nat (length (remove_dups (slice arr left (right + 1)))).

(** The error the specification assigns to a query, [None] for a valid
    one: the range error when [left < 0], [right >= arr.length] or
    [left > right]; else the rank error when [k <= 0]; else the
    distinct-count error when [k] exceeds the number of distinct values of
    [arr[left..right]]. *)
Definition queryError (arr : list Z) (q : query) : option error :=
  let left := q.1.1 in
  let right := q.1.2 in
  let k := q.2 in
  if decide (left < 0 \/ Z.of_nat (length arr) <= right \/ right < left)
  then Some (InvalidRange left right)
  else if decide (k <= 0) then Some (InvalidK k)
  else if decide (distinctCount arr left right < k)
  then Some (KExceedsDistinct k (distinctCount arr left right) left right)
  else None.

(** A valid query: [0 <= left <= right < arr.length] and
    [1 <= k <= number of distinct values in arr[left..right]]. *)
Definition validQuery (arr : list Z) (q : query) : Prop :=
  0 <= q.1.1 /\ q.1.1 <= q.1.2 /\ q.1.2 < Z.of_nat (length arr) /\
  1 <= q.2 /\ q.2 <= distinctCount arr q.1.1 q.1.2.

Global Instance validQuery_dec arr q : Decision (validQuery arr q).
Proof. unfold validQuery. apply _. Defined.

(** [built arr start end_ n]: [n] is the node that [buildSegmentTree]
    makes for the index range [start..end_]. *)
Inductive built (arr : list Z) : Z -> Z -> node -> Prop :=
| built_leaf start :
    built arr start start
      (mkNode start start {[ arrayGet arr start := 1 ]}
              [arrayGet arr start] None None)
| built_inner start end_ l r :
    start < end_ ->
    built arr start ((start + end_) `div` 2) l ->
    built arr ((start + end_) `div` 2 + 1) end_ r ->
    built arr start end_
      (mkNode start end_
         (mergeInto (node_frequencyMap r) (mergeInto (node_frequencyMap l) ∅))
         (frequencySort
            (mergeInto (node_frequencyMap r) (mergeInto (node_frequencyMap l) ∅)))
         (Some l) (Some r)).

(** [d] is [n] or one of its descendants. *)
Inductive subnode (d : node) : node -> Prop :=
| subnode_here : subnode d d
| subnode_left n child :
    node_left n = Some child -> subnode d child -> subnode d n
| subnode_right n child :
    node_right n = Some child -> subnode d child -> subnode d n.

(** The invariant of a node of the tree over [arr]: its range lies within
    the array; its table is the table of its slice of the array; the counts
    sum to the size of the range; its ranking holds each value of the slice
    once, an earlier position strictly outranking a later one. *)
Definition nodeInvariant (arr : list Z) (n : node) : Prop :=
  let range := slice arr (node_start n) (node_end n + 1) in
  (0 <= node_start n /\ node_start n <= node_end n /\
   node_end n < Z.of_nat (length arr)) /\
  tableOf range (node_frequencyMap n) /\
  sumOfCounts (node_frequencyMap n) = node_end n - node_start n + 1 /\
  NoDup (node_frequencySorted n) /\
  (forall v, v ∈ node_frequencySorted n <-> v ∈ range) /\
  (forall i j x y, (i < j)%nat ->
     node_frequencySorted n !! i = Some x ->
     node_frequencySorted n !! j = Some y ->
     strictlyOutranks range x y).

(** The combination of two counts of one key in a merge. *)
Definition addCounts (a b : Z) : option Z := Some (a + b).

Global Instance strictlyOutranks_dec l a b : Decision (strictlyOutranks l a b).
Proof. unfold strictlyOutranks. apply _. Defined.

(** [x] has rank [k] (1 is the most frequent) among the values of [l]: it
    occurs in [l], and [k - 1] distinct values of [l] rank strictly before
    it. *)
Definition rankedAt (l : list Z) (k : Z) (x : Z) : Prop :=
  x ∈ l /\
  Z.of_nat (length (filter (fun y => strictlyOutranks l y x) (remove_dups l)))
  = k - 1.

(** The number of nodes on the longest path from [n] down to a leaf. *)
Fixpoint height (n : node) : nat :=
  match n with
  | mkNode _ _ _ _ nleft nright =>
      S (Nat.max (match nleft with Some child => height child | None => 0%nat end)
                 (match nright with Some child => height child | None => 0%nat end))
  end.

(** The number of nodes of the tree under [n], [n] included. *)
Fixpoint nodeCount (n : node) : nat :=
  match n with
  | mkNode _ _ _ _ nleft nright =>
      S ((match nleft with Some child => nodeCount child | None => 0%nat end)
         + (match nright with Some child => nodeCount child | None => 0%nat end))
  end.

(** A query whose range is the whole array. *)
Definition fullRange (arr : list Z) (q : query) : Prop :=
  q.1.1 = 0 /\ q.1.2 = Z.of_nat (length arr) - 1.

(** * Part III: properties *)

(** ** Frequency tables *)

Lemma foldl_addFrequency_lookup (keep : Z -> bool) (entries : list (Z * Z))
    (table : gmap Z Z) (v : Z) :
  NoDup entries.*1 ->
  foldl (fun acc '(element, frequency) =>
           if keep element then addFrequency acc element frequency else acc)
        table entries !! v
  = union_with addCounts (table !! v)
      (if keep v then (list_to_map entries : gmap Z Z) !! v else None).
Proof.
  revert table. induction entries as [|[e f] entries IH]; intros table Hnd.
  - simpl. rewrite lookup_empty. destruct (keep v), (table !! v); reflexivity.
  - simpl in *. apply NoDup_cons in Hnd as [Hfresh Hnd].
    rewrite IH by assumption. clear IH.
    destruct (decide (v = e)) as [->|Hne].
    + rewrite lookup_insert_eq.
      rewrite (not_elem_of_list_to_map_1 (M := gmap Z) entries e Hfresh).
      destruct (keep e).
      * unfold addFrequency, frequencyOf. rewrite lookup_insert_eq.
        destruct (table !! e); simpl; unfold addCounts; f_equal; lia.
      * reflexivity.
    + rewrite (lookup_insert_ne _ e v) by congruence.
      destruct (keep e); [|reflexivity].
      unfold addFrequency. rewrite lookup_insert_ne by congruence. reflexivity.
Qed.

Lemma mergeInRange_lookup (left right : Z) (source table : gmap Z Z) (v : Z) :
  mergeInRange left right source table !! v
  = union_with addCounts (table !! v)
      (if (left <=? v) && (v <=? right) then source !! v else None).
Proof.
  unfold mergeInRange.
  rewrite (foldl_addFrequency_lookup (fun e => (left <=? e) && (e <=? right)))
    by apply NoDup_fst_map_to_list.
  rewrite list_to_map_to_list. reflexivity.
Qed.

Lemma mergeInto_lookup (source table : gmap Z Z) (v : Z) :
  mergeInto source table !! v = union_with addCounts (table !! v) (source !! v).
Proof.
  unfold mergeInto.
  rewrite <- (list_to_map_to_list source) at 2.
  rewrite <- (foldl_addFrequency_lookup (fun _ => true))
    by apply NoDup_fst_map_to_list.
  f_equal.
Qed.

(** ** The ranking order *)

Lemma rankedBefore_spec (table : gmap Z Z) (a b : Z) :
  rankedBefore table a b <->
  frequencyOf table b < frequencyOf table a \/
  (frequencyOf table a = frequencyOf table b /\ a <= b).
Proof.
  unfold rankedBefore, compareByFrequency. cbv zeta.
  destruct (decide (frequencyOf table b - frequencyOf table a <> 0)); lia.
Qed.

Global Instance rankedBefore_total table : Total (rankedBefore table).
Proof. intros a b. rewrite !rankedBefore_spec. lia. Qed.

Global Instance rankedBefore_trans table : Transitive (rankedBefore table).
Proof. intros a b c. rewrite !rankedBefore_spec. lia. Qed.

Global Instance rankedBefore_antisymm table : AntiSymm (=) (rankedBefore table).
Proof. intros a b. rewrite !rankedBefore_spec. lia. Qed.

Lemma frequencySort_Permutation (table : gmap Z Z) :
  frequencySort table ≡ₚ (map_to_list table).*1.
Proof. apply merge_sort_Permutation. Qed.

Lemma frequencySort_sorted (table : gmap Z Z) :
  StronglySorted (rankedBefore table) (frequencySort table).
Proof. apply StronglySorted_merge_sort; apply _. Qed.

Lemma frequencySort_NoDup (table : gmap Z Z) : NoDup (frequencySort table).
Proof.
  rewrite frequencySort_Permutation. apply NoDup_fst_map_to_list.
Qed.

Lemma elem_of_frequencySort (table : gmap Z Z) (v : Z) :
  v ∈ frequencySort table <-> is_Some (table !! v).
Proof.
  rewrite frequencySort_Permutation, list_elem_of_fmap. split.
  - intros [[e f] [-> Hin]]. apply elem_of_map_to_list in Hin. eauto.
  - intros [f Hf]. exists (v, f). split; [reflexivity|].
    by apply elem_of_map_to_list.
Qed.

Lemma length_frequencySort (table : gmap Z Z) :
  length (frequencySort table) = size table.
Proof.
  rewrite frequencySort_Permutation, length_fmap.
  apply length_map_to_list.
Qed.

(** Whatever order [Object.keys] enumerates the table in, and whatever
    sorting algorithm the engine runs, the sorted array is the same: a
    sorted arrangement of the keys is unique. *)
Lemma frequencySort_unique (table : gmap Z Z) (sorted : list Z) :
  sorted ≡ₚ (map_to_list table).*1 ->
  Sorted (rankedBefore table) sorted ->
  sorted = frequencySort table.
Proof.
  intros Hperm Hsorted.
  apply (Sorted_unique (rankedBefore table)); [assumption | |].
  - apply Sorted_merge_sort. apply _.
  - rewrite Hperm. symmetry. apply frequencySort_Permutation.
Qed.

(** ** Tables of a list of elements *)

Lemma occurrences_app v l1 l2 :
  occurrences v (l1 ++ l2) = occurrences v l1 + occurrences v l2.
Proof. unfold occurrences. rewrite filter_app, length_app. lia. Qed.

Lemma occurrences_nonneg v l : 0 <= occurrences v l.
Proof. unfold occurrences. lia. Qed.

Lemma occurrences_pos v l : v ∈ l <-> 0 < occurrences v l.
Proof.
  unfold occurrences. split.
  - intros Hin. assert (Hf : v ∈ filter (eq v) l) by (by apply list_elem_of_filter).
    destruct (filter (eq v) l); [by apply elem_of_nil in Hf | simpl; lia].
  - intros Hpos. destruct (filter (eq v) l) as [|x f] eqn:E; [simpl in Hpos; lia|].
    assert (Hx : x ∈ filter (eq v) l) by (rewrite E; left).
    apply list_elem_of_filter in Hx as [-> Hx]. exact Hx.
Qed.

Lemma occurrences_zero v l : v ∉ l -> occurrences v l = 0.
Proof.
  intros Hnin. pose proof (occurrences_nonneg v l).
  destruct (decide (0 < occurrences v l)) as [Hpos|]; [|lia].
  apply occurrences_pos in Hpos. contradiction.
Qed.

Lemma tableOf_frequencyOf l table v :
  tableOf l table -> frequencyOf table v = occurrences v l.
Proof.
  intros Ht. unfold frequencyOf. rewrite Ht.
  destruct (decide (v ∈ l)); simpl; [reflexivity|].
  symmetry. by apply occurrences_zero.
Qed.

Lemma tableOf_is_Some l table v :
  tableOf l table -> is_Some (table !! v) <-> v ∈ l.
Proof.
  intros Ht. rewrite Ht. destruct (decide (v ∈ l)); split; intros H;
    try assumption; try contradiction; eauto.
  by destruct H.
Qed.

Lemma tableOf_unique l t1 t2 : tableOf l t1 -> tableOf l t2 -> t1 = t2.
Proof. intros H1 H2. apply map_eq. intros v. by rewrite H1, H2. Qed.

Lemma tableOf_singleton x : tableOf [x] {[ x := 1 ]}.
Proof.
  intros v. destruct (decide (v = x)) as [->|Hne].
  - rewrite lookup_singleton_eq, decide_True by left.
    unfold occurrences. simpl. rewrite filter_cons_True by reflexivity.
    reflexivity.
  - rewrite lookup_singleton_ne by congruence.
    rewrite decide_False; [reflexivity|]. by intros ->%list_elem_of_singleton.
Qed.

Lemma tableOf_rankedBefore l table a b :
  tableOf l table -> rankedBefore table a b <-> outranks l a b.
Proof.
  intros Ht. rewrite rankedBefore_spec. unfold outranks.
  by rewrite !(tableOf_frequencyOf l table).
Qed.

Lemma tableOf_nil : tableOf [] ∅.
Proof.
  intros v. rewrite lookup_empty, decide_False; [reflexivity|].
  apply not_elem_of_nil.
Qed.

Lemma tableOf_cons x l table :
  tableOf l table -> tableOf (x :: l) (addFrequency table x 1).
Proof.
  intros Ht v. unfold addFrequency.
  change (x :: l) with ([x] ++ l). rewrite occurrences_app.
  destruct (decide (v = x)) as [->|Hne].
  - rewrite lookup_insert_eq, (tableOf_frequencyOf l) by assumption.
    rewrite decide_True by (apply elem_of_app; left; left).
    f_equal. unfold occurrences at 2. simpl.
    rewrite filter_cons_True by reflexivity. simpl. lia.
  - rewrite lookup_insert_ne by congruence. rewrite Ht.
    assert (Hx : occurrences v [x] = 0).
    { apply occurrences_zero. by intros ->%list_elem_of_singleton. }
    rewrite Hx, Z.add_0_l.
    destruct (decide (v ∈ l)) as [Hin|Hnin].
    + rewrite decide_True by (apply elem_of_app; by right). reflexivity.
    + rewrite decide_False; [reflexivity|].
      intros [->%list_elem_of_singleton|?]%elem_of_app; contradiction.
Qed.

Lemma tableOf_merge l1 l2 t1 t2 :
  tableOf l1 t1 -> tableOf l2 t2 ->
  tableOf (l1 ++ l2) (mergeInto t2 (mergeInto t1 ∅)).
Proof.
  intros H1 H2 v.
  rewrite !mergeInto_lookup, lookup_empty, H1, H2, occurrences_app.
  destruct (decide (v ∈ l1)) as [Hv1|Hv1], (decide (v ∈ l2)) as [Hv2|Hv2]; simpl.
  - rewrite decide_True by (apply elem_of_app; by left). reflexivity.
  - rewrite decide_True by (apply elem_of_app; by left).
    rewrite (occurrences_zero v l2) by assumption. f_equal. lia.
  - rewrite decide_True by (apply elem_of_app; by right).
    rewrite (occurrences_zero v l1) by assumption. f_equal.
  - rewrite decide_False; [reflexivity|].
    intros [?|?]%elem_of_app; contradiction.
Qed.

Lemma sumOfCounts_addFrequency table x c :
  sumOfCounts (addFrequency table x c) = sumOfCounts table + c.
Proof.
  unfold addFrequency, frequencyOf, sumOfCounts.
  destruct (table !! x) as [c0|] eqn:E; simpl.
  - rewrite <- insert_delete_eq.
    rewrite map_fold_insert_L; [|intros; lia|apply lookup_delete_eq].
    rewrite (map_fold_delete_L _ _ x c0 table); [lia|intros; lia|assumption].
  - rewrite map_fold_insert_L; [lia|intros; lia|assumption].
Qed.

(** The sum of the counts of the table of [l] is the length of [l]. *)
Lemma tableOf_sumOfCounts l table :
  tableOf l table -> sumOfCounts table = Z.of_nat (length l).
Proof.
  revert table. induction l as [|x l IH]; intros table Ht.
  - rewrite (tableOf_unique [] table ∅ Ht tableOf_nil).
    unfold sumOfCounts. by rewrite map_fold_empty.
  - set (rest := foldr (fun y t => addFrequency t y 1) ∅ l).
    assert (Hrest : tableOf l rest).
    { subst rest. clear. induction l as [|y l IHl]; simpl;
        [apply tableOf_nil | by apply tableOf_cons]. }
    rewrite (tableOf_unique (x :: l) table (addFrequency rest x 1) Ht
               (tableOf_cons x l rest Hrest)).
    rewrite sumOfCounts_addFrequency, (IH rest Hrest). simpl length. lia.
Qed.

(** The number of keys of the table of [l] is the number of distinct
    values of [l]. *)
Lemma tableOf_size l table :
  tableOf l table -> size table = size (list_to_set l : gset Z).
Proof.
  intros Ht. rewrite <- (size_dom (D := gset Z)). f_equal.
  apply set_eq. intros v.
  rewrite elem_of_dom, (tableOf_is_Some l table v Ht), elem_of_list_to_set.
  reflexivity.
Qed.

(** ** Slices of the array *)

Lemma slice_split (arr : list Z) (a b c : Z) :
  0 <= a <= b -> b <= c ->
  slice arr a c = slice arr a b ++ slice arr b c.
Proof.
  intros Hab Hbc. unfold slice.
  replace (Z.to_nat (c - a)) with (Z.to_nat (b - a) + Z.to_nat (c - b))%nat by lia.
  rewrite <- take_take_drop, drop_drop.
  do 3 f_equal. lia.
Qed.

Lemma slice_one (arr : list Z) (i : Z) :
  0 <= i < Z.of_nat (length arr) ->
  slice arr i (i + 1) = [arrayGet arr i].
Proof.
  intros Hi. unfold slice, arrayGet.
  replace (Z.to_nat (i + 1 - i)) with 1%nat by lia.
  destruct (lookup_lt_is_Some_2 arr (Z.to_nat i)) as [x Hx]; [lia|].
  rewrite Hx, (drop_S _ _ _ Hx). reflexivity.
Qed.

Lemma length_slice (arr : list Z) (a b : Z) :
  0 <= a <= b -> b <= Z.of_nat (length arr) ->
  Z.of_nat (length (slice arr a b)) = b - a.
Proof.
  intros Hab Hb. unfold slice. rewrite length_take, length_drop. lia.
Qed.

Lemma slice_all (arr : list Z) : slice arr 0 (Z.of_nat (length arr)) = arr.
Proof.
  unfold slice. simpl. rewrite Z.sub_0_r, Nat2Z.id. apply take_ge.
  reflexivity.
Qed.

(** ** The shape of the tree that [buildSegmentTree] returns *)

Section BuiltTree.

Variable arr : list Z.

Lemma midpoint_bounds (start end_ : Z) :
  start < end_ ->
  start <= (start + end_) `div` 2 < end_.
Proof. intros H. split; [apply Z.div_le_lower_bound | apply Z.div_lt_upper_bound]; lia. Qed.

(** The recursion of [buildSegmentTree] on a range [start <= end_] ends
    within [end_ - start + 1] nested calls. *)
Lemma buildSegmentTree_depth_enough (depth : nat) (start end_ : Z) :
  start <= end_ ->
  (Z.to_nat (end_ - start + 1) <= depth)%nat ->
  exists n, buildSegmentTree_depth depth arr start end_ = inr n /\
            built arr start end_ n.
Proof.
  revert start end_. induction depth as [|depth IH]; intros start end_ Hle Hdepth.
  - lia.
  - cbn [buildSegmentTree_depth]. cbv zeta.
    destruct (decide (start = end_)) as [<-|Hne].
    + eexists. split; [reflexivity | exact (built_leaf arr start)].
    + pose proof (midpoint_bounds start end_ ltac:(lia)) as Hmid.
      destruct (IH start ((start + end_) `div` 2)) as (l & -> & Hl); [lia..|].
      cbn [bind].
      destruct (IH ((start + end_) `div` 2 + 1) end_) as (r & -> & Hr); [lia..|].
      cbn [bind]. eexists. split; [reflexivity|].
      exact (built_inner arr start end_ l r ltac:(lia) Hl Hr).
Qed.

Lemma buildSegmentTree_built (start end_ : Z) :
  start <= end_ ->
  exists n, buildSegmentTree arr start end_ = inr n /\ built arr start end_ n.
Proof.
  intros Hle. apply buildSegmentTree_depth_enough; [assumption | reflexivity].
Qed.

(** With [end_ < start] the recursion never ends, whatever depth the call
    stack allows. *)
Lemma buildSegmentTree_depth_overflow (depth : nat) (start end_ : Z) :
  end_ < start ->
  buildSegmentTree_depth depth arr start end_ = inl RangeError.
Proof.
  revert end_. induction depth as [|depth IH]; intros end_ Hlt; [reflexivity|].
  cbn [buildSegmentTree_depth]. cbv zeta. rewrite decide_False by lia.
  rewrite IH; [reflexivity|]. apply Z.div_lt_upper_bound; lia.
Qed.

Lemma built_range (start end_ : Z) (n : node) :
  built arr start end_ n ->
  node_start n = start /\ node_end n = end_ /\ start <= end_.
Proof. destruct 1; simpl; repeat split; lia. Qed.

Lemma built_subnode (start end_ : Z) (n d : node) :
  built arr start end_ n -> subnode d n ->
  exists start' end', start <= start' /\ end' <= end_ /\ built arr start' end' d.
Proof.
  intros Hn Hd. revert start end_ Hn.
  induction Hd as [|n child Hc Hd IH|n child Hc Hd IH]; intros start end_ Hn.
  - exists start, end_. destruct (built_range _ _ _ Hn) as (_ & _ & ?).
    repeat split; [lia..|assumption].
  - destruct Hn as [start|start end_ l r Hlt Hl Hr]; simpl in Hc; [discriminate|].
    injection Hc as <-. pose proof (midpoint_bounds _ _ Hlt).
    destruct (IH _ _ Hl) as (s' & e' & ? & ? & ?).
    exists s', e'. repeat split; [lia..|assumption].
  - destruct Hn as [start|start end_ l r Hlt Hl Hr]; simpl in Hc; [discriminate|].
    injection Hc as <-. pose proof (midpoint_bounds _ _ Hlt).
    destruct (IH _ _ Hr) as (s' & e' & ? & ? & ?).
    exists s', e'. repeat split; [lia..|assumption].
Qed.

(** The table of a built node is the table of its slice of the array, and
    its ranking is the sorted array of the keys of that table. *)
Lemma built_tableOf (start end_ : Z) (n : node) :
  built arr start end_ n ->
  0 <= start -> end_ < Z.of_nat (length arr) ->
  tableOf (slice arr start (end_ + 1)) (node_frequencyMap n).
Proof.
  induction 1 as [start|start end_ l r Hlt Hl IHl Hr IHr]; intros Hlo Hhi; simpl.
  - rewrite slice_one by lia. apply tableOf_singleton.
  - pose proof (midpoint_bounds _ _ Hlt).
    rewrite (slice_split arr start ((start + end_) `div` 2 + 1)) by lia.
    apply tableOf_merge; [apply IHl | apply IHr]; lia.
Qed.

Lemma built_frequencySorted (start end_ : Z) (n : node) :
  built arr start end_ n ->
  node_frequencySorted n = frequencySort (node_frequencyMap n).
Proof.
  destruct 1; simpl; [|reflexivity].
  unfold frequencySort. rewrite map_to_list_singleton. reflexivity.
Qed.

(** ** [queryRange] on built trees *)

(** On a built tree and a range [left <= right], [queryRange] never reads a
    child of a leaf: it returns a result. *)
Lemma queryRange_built_returns (start end_ : Z) (n : node) :
  built arr start end_ n ->
  forall left right k, left <= right ->
  exists result, queryRange n left right k = inr result.
Proof.
  induction 1 as [start|start end_ l r Hlt Hl IHl Hr IHr]; intros left right k Hle.
  - simpl. destruct (decide (left <= start /\ start <= right)); [eauto|].
    destruct (decide (start < left \/ right < start)); [eauto|lia].
  - simpl. destruct (decide (left <= start /\ end_ <= right)); [eauto|].
    destruct (decide (end_ < left \/ right < start)); [eauto|].
    destruct (decide (left <= (start + end_) `div` 2)) as [Hl1|Hl1].
    + destruct (IHl left (Z.min right ((start + end_) `div` 2)) 1) as [res1 ->]; [lia|].
      simpl. destruct (decide ((start + end_) `div` 2 < right)) as [Hr1|Hr1].
      * destruct (IHr (Z.max left ((start + end_) `div` 2 + 1)) right 1)
          as [res2 ->]; [lia|]. simpl. eauto.
      * simpl. eauto.
    + simpl. destruct (decide ((start + end_) `div` 2 < right)) as [Hr1|Hr1].
      * destruct (IHr (Z.max left ((start + end_) `div` 2 + 1)) right 1)
          as [res2 ->]; [lia|]. simpl. eauto.
      * simpl. eauto.
Qed.

(** A node whose range lies within the query range answers from its own
    ranking. *)
Lemma queryRange_contained (n : node) (left right k : Z) :
  left <= node_start n -> node_end n <= right ->
  queryRange n left right k
  = inr (selectRank (node_frequencySorted n) (node_frequencyMap n) k).
Proof.
  intros Hs He. destruct n as [start end_ fm fs nl nr]. simpl in *.
  rewrite decide_True by lia. reflexivity.
Qed.

(** ** The validation of a query *)

Lemma distinctInRange_distinctCount (left right : Z) :
  distinctInRange arr left right = distinctCount arr left right.
Proof.
  unfold distinctInRange, distinctCount. f_equal.
  rewrite <- (size_list_to_set (C := gset Z) (remove_dups _))
    by apply NoDup_remove_dups.
  f_equal. apply set_eq. intros v.
  rewrite !elem_of_list_to_set, elem_of_remove_dups. reflexivity.
Qed.

Lemma queryError_None (q : query) :
  queryError arr q = None <-> validQuery arr q.
Proof.
  unfold queryError, validQuery. cbv zeta.
  repeat case_decide; split; intros Hq; try discriminate; try reflexivity; lia.
Qed.

(** The loop of [frequencyBasedQueries] stops at an invalid entry with the
    error of that entry, whatever the tree is and whatever was answered
    before: the core query is not consulted. *)
Lemma answerQueries_invalid (root : node) (q : query)
    (rest : list query) (results : list value) (e : error) :
  queryError arr q = Some e ->
  answerQueries arr root (q :: rest) results = inl e.
Proof.
  unfold queryError. simpl. rewrite distinctInRange_distinctCount.
  repeat case_decide; intros Hq; try discriminate; congruence.
Qed.

Lemma answerQueries_valid (root : node) (q : query)
    (rest : list query) (results : list value) :
  validQuery arr q ->
  answerQueries arr root (q :: rest) results
  = bind (queryRange root q.1.1 q.1.2 q.2)
         (fun result => answerQueries arr root rest (results ++ [element result])).
Proof.
  intros (? & ? & ? & ? & ?). simpl. rewrite distinctInRange_distinctCount.
  rewrite !decide_False by lia. reflexivity.
Qed.

(** Over a built tree, a prefix of valid queries is answered in full. *)
Lemma answerQueries_valid_prefix (start end_ : Z) (root : node)
    (prefix rest : list query) (results : list value) :
  built arr start end_ root ->
  Forall (validQuery arr) prefix ->
  exists answers,
    length answers = length prefix /\
    answerQueries arr root (prefix ++ rest) results
    = answerQueries arr root rest (results ++ answers).
Proof.
  intros Hroot Hvalid. revert results.
  induction Hvalid as [|q prefix Hq Hvalid IH]; intros results.
  - exists []. by rewrite app_nil_r.
  - rewrite <- app_comm_cons, answerQueries_valid by assumption.
    destruct (queryRange_built_returns _ _ _ Hroot q.1.1 q.1.2 q.2)
      as [result ->]; [apply Hq|]. simpl.
    destruct (IH (results ++ [element result])) as (answers & Hlen & ->).
    exists (element result :: answers). split; [simpl; lia|].
    by rewrite <- app_assoc.
Qed.

(** ** The invariant of the nodes *)

Lemma StronglySorted_lookup_lt {A} (R : relation A) (l : list A) :
  StronglySorted R l ->
  forall i j x y, (i < j)%nat -> l !! i = Some x -> l !! j = Some y -> R x y.
Proof.
  induction 1 as [|a l Hsorted IH Hall]; intros i j x y Hij Hi Hj.
  - discriminate.
  - destruct j as [|j]; [lia|]. simpl in Hj. destruct i as [|i]; simpl in Hi.
    + injection Hi as <-. by apply (Forall_lookup_1 _ _ _ _ Hall Hj).
    + apply (IH i j); [lia|assumption..].
Qed.

Lemma built_nodeInvariant (start end_ : Z) (n : node) :
  built arr start end_ n ->
  0 <= start -> end_ < Z.of_nat (length arr) ->
  nodeInvariant arr n.
Proof.
  intros Hn Hlo Hhi. unfold nodeInvariant. cbv zeta.
  destruct (built_range _ _ _ Hn) as (-> & -> & Hle).
  pose proof (built_tableOf _ _ _ Hn Hlo Hhi) as Htable.
  pose proof (built_frequencySorted _ _ _ Hn) as Hsorted.
  split; [lia|]. split; [assumption|]. split.
  { rewrite (tableOf_sumOfCounts _ _ Htable), length_slice; lia. }
  rewrite Hsorted. split; [apply frequencySort_NoDup|]. split.
  { intros v. rewrite elem_of_frequencySort. by apply tableOf_is_Some. }
  intros i j x y Hij Hi Hj.
  assert (Hxy : outranks (slice arr start (end_ + 1)) x y).
  { apply (tableOf_rankedBefore _ _ _ _ Htable).
    apply (StronglySorted_lookup_lt _ _ (frequencySort_sorted _) i j); assumption. }
  assert (Hne : x <> y).
  { intros ->. pose proof (NoDup_lookup _ _ _ _ (frequencySort_NoDup _) Hi Hj). lia. }
  unfold outranks in Hxy. unfold strictlyOutranks. lia.
Qed.

Lemma built_distinct (start end_ : Z) (n : node) :
  built arr start end_ n ->
  0 <= start -> end_ < Z.of_nat (length arr) ->
  Z.of_nat (length (node_frequencySorted n)) = distinctCount arr start end_.
Proof.
  intros Hn Hlo Hhi.
  rewrite (built_frequencySorted _ _ _ Hn), length_frequencySort.
  rewrite (tableOf_size _ _ (built_tableOf _ _ _ Hn Hlo Hhi)).
  apply distinctInRange_distinctCount.
Qed.

Lemma nonempty_length : arr <> [] -> 0 < Z.of_nat (length arr).
Proof. destruct arr; [congruence | simpl; lia]. Qed.

Lemma buildSegmentTree_root :
  arr <> [] ->
  exists root,
    buildSegmentTree arr 0 (Z.of_nat (length arr) - 1) = inr root /\
    built arr 0 (Z.of_nat (length arr) - 1) root.
Proof.
  intros Hne%nonempty_length. apply buildSegmentTree_built. lia.
Qed.

Lemma queryError_not_EmptyInput (q : query) :
  queryError arr q <> Some EmptyInput.
Proof. unfold queryError. cbv zeta. repeat case_decide; congruence. Qed.

Lemma answerQueries_not_EmptyInput (start end_ : Z) (root : node)
    (queries : list query) (results : list value) :
  built arr start end_ root ->
  answerQueries arr root queries results <> inl EmptyInput.
Proof.
  intros Hroot. revert results.
  induction queries as [|q queries IH]; intros results; [discriminate|].
  destruct (queryError arr q) as [e|] eqn:E.
  - rewrite (answerQueries_invalid _ _ _ _ _ E).
    intros [= ->]. by apply (queryError_not_EmptyInput q).
  - apply queryError_None in E.
    rewrite answerQueries_valid by assumption.
    destruct (queryRange_built_returns _ _ _ Hroot q.1.1 q.1.2 q.2)
      as [result ->]; [apply E|]. apply IH.
Qed.

(** What a child adds in the partial-overlap case: the entries of its whole
    table whose key lies between [left] and [right]. *)
Lemma childContribution_lookup (child : node) (childResult : queryResult)
    (left right : Z) (table : gmap Z Z) (v : Z) :
  element childResult <> Num (-1) ->
  childContribution child childResult left right table !! v
  = union_with addCounts (table !! v)
      (if (left <=? v) && (v <=? right)
       then node_frequencyMap child !! v else None).
Proof.
  intros Hne. unfold childContribution. rewrite decide_True by assumption.
  apply mergeInRange_lookup.
Qed.

End BuiltTree.

(** ** The direct count of [optimizedFrequencyBasedQueries] *)

Lemma StronglySorted_weaken {A} (R R' : relation A) (l : list A) :
  (forall a b, R a b -> R' a b) ->
  StronglySorted R l -> StronglySorted R' l.
Proof.
  intros Himpl. induction 1 as [|a l Hsorted IH Hall]; constructor.
  - assumption.
  - eapply Forall_impl; [exact Hall|]. intros b. apply Himpl.
Qed.

Lemma occurrences_Permutation v l1 l2 :
  l1 ≡ₚ l2 -> occurrences v l1 = occurrences v l2.
Proof. intros Hperm. unfold occurrences. by rewrite Hperm. Qed.

Lemma tableOf_Permutation l1 l2 table :
  l1 ≡ₚ l2 -> tableOf l1 table -> tableOf l2 table.
Proof.
  intros Hperm Ht v. rewrite Ht, (occurrences_Permutation v l1 l2 Hperm).
  destruct (decide (v ∈ l1)) as [Hin|Hnin].
  - rewrite decide_True; [reflexivity|]. by rewrite <- Hperm.
  - rewrite decide_False; [reflexivity|]. by rewrite <- Hperm.
Qed.

Lemma tableOf_snoc x l table :
  tableOf l table -> tableOf (l ++ [x]) (addFrequency table x 1).
Proof.
  intros Ht. apply (tableOf_Permutation (x :: l)).
  - apply Permutation_cons_append.
  - by apply tableOf_cons.
Qed.

Lemma countRange_prefix (arr : list Z) (left : Z) (i : nat) :
  0 <= left -> left + Z.of_nat i <= Z.of_nat (length arr) ->
  tableOf (slice arr left (left + Z.of_nat i))
    (foldl (fun frequencyMap j => addFrequency frequencyMap (arrayGet arr j) 1)
           ∅ (seqZ left (Z.of_nat i))).
Proof.
  intros Hlo. induction i as [|i IH]; intros Hhi.
  - simpl. rewrite Z.add_0_r. unfold slice. rewrite Z.sub_diag. simpl.
    apply tableOf_nil.
  - rewrite seqZ_S, foldl_app. simpl.
    rewrite (slice_split arr left (left + Z.of_nat i)) by lia.
    replace (left + Z.of_nat (S i)) with (left + Z.of_nat i + 1) by lia.
    rewrite slice_one by lia.
    apply tableOf_snoc, IH. lia.
Qed.

(** The loop of the direct count tallies the queried slice. *)
Lemma countRange_tableOf (arr : list Z) (left right : Z) :
  0 <= left -> left <= right -> right < Z.of_nat (length arr) ->
  tableOf (slice arr left (right + 1)) (countRange arr left right).
Proof.
  intros Hlo Hle Hhi. unfold countRange.
  replace (right - left + 1) with (Z.of_nat (Z.to_nat (right - left + 1))) by lia.
  replace (right + 1) with (left + Z.of_nat (Z.to_nat (right - left + 1))) by lia.
  apply countRange_prefix; lia.
Qed.

Lemma countRange_distinct (arr : list Z) (left right : Z) :
  0 <= left -> left <= right -> right < Z.of_nat (length arr) ->
  Z.of_nat (length (map_to_list (countRange arr left right)).*1)
  = distinctCount arr left right.
Proof.
  intros Hlo Hle Hhi.
  rewrite length_fmap, length_map_to_list.
  rewrite (tableOf_size _ _ (countRange_tableOf arr left right Hlo Hle Hhi)).
  apply distinctInRange_distinctCount.
Qed.

Lemma answerDirectly_invalid (arr : list Z) (q : query) (rest : list query)
    (results : list value) (e : error) :
  queryError arr q = Some e ->
  answerDirectly arr (q :: rest) results = inl e.
Proof.
  unfold queryError. simpl.
  destruct (decide (q.1.1 < 0 \/ Z.of_nat (length arr) <= q.1.2 \/ q.1.2 < q.1.1));
    [congruence|].
  destruct (decide (q.2 <= 0)); [congruence|].
  rewrite countRange_distinct by lia.
  destruct (decide (distinctCount arr q.1.1 q.1.2 < q.2)); [congruence|discriminate].
Qed.

Lemma answerDirectly_valid (arr : list Z) (q : query) (rest : list query)
    (results : list value) :
  validQuery arr q ->
  answerDirectly arr (q :: rest) results
  = answerDirectly arr rest
      (results ++ [index (frequencySort (countRange arr q.1.1 q.1.2)) (q.2 - 1)]).
Proof.
  intros (? & ? & ? & ? & ?). simpl.
  rewrite countRange_distinct by lia.
  rewrite !decide_False by lia. reflexivity.
Qed.

(** The direct count answers a valid query by a value of the queried
    range, the one that [k - 1] values of the range strictly outrank. *)
Lemma direct_answer_in_range (arr : list Z) (q : query) :
  validQuery arr q ->
  exists x,
    index (frequencySort (countRange arr q.1.1 q.1.2)) (q.2 - 1) = Num x /\
    x ∈ slice arr q.1.1 (q.1.2 + 1) /\
    frequencySort (countRange arr q.1.1 q.1.2) !! Z.to_nat (q.2 - 1) = Some x /\
    StronglySorted (outranks (slice arr q.1.1 (q.1.2 + 1)))
      (frequencySort (countRange arr q.1.1 q.1.2)).
Proof.
  intros (Hlo & Hle & Hhi & Hk & Hdistinct).
  pose proof (countRange_tableOf arr q.1.1 q.1.2 Hlo Hle Hhi) as Htable.
  rewrite <- (countRange_distinct arr q.1.1 q.1.2 Hlo Hle Hhi) in Hdistinct.
  rewrite <- (Permutation_length (frequencySort_Permutation _)) in Hdistinct.
  destruct (lookup_lt_is_Some_2 (frequencySort (countRange arr q.1.1 q.1.2))
              (Z.to_nat (q.2 - 1))) as [x Hx]; [lia|].
  exists x. unfold index. rewrite decide_False by lia. rewrite Hx.
  split; [reflexivity|]. split; [|split; [reflexivity|]].
  - apply (tableOf_is_Some _ _ x Htable), elem_of_frequencySort.
    by apply list_elem_of_lookup_2 in Hx.
  - eapply StronglySorted_weaken; [|apply frequencySort_sorted].
    intros a b. by apply tableOf_rankedBefore.
Qed.

(** On the whole array the two entry points agree, for every [k]: the root
    of the tree is fully contained in the query range. *)
Lemma full_range_agreement (arr : list Z) (k : Z) :
  arr <> [] ->
  frequencyBasedQueries arr [(0, Z.of_nat (length arr) - 1, k)]
  = optimizedFrequencyBasedQueries arr [(0, Z.of_nat (length arr) - 1, k)].
Proof.
  intros Hne. pose proof (nonempty_length arr Hne) as Hlen.
  unfold frequencyBasedQueries, optimizedFrequencyBasedQueries.
  rewrite !decide_False by (destruct arr; [congruence|discriminate]).
  destruct (buildSegmentTree_root arr Hne) as (root & -> & Hroot). cbn [bind].
  set (q := (0, Z.of_nat (length arr) - 1, k)).
  destruct (queryError arr q) as [e|] eqn:E.
  - by rewrite (answerQueries_invalid _ _ _ _ _ _ E),
               (answerDirectly_invalid _ _ _ _ _ E).
  - apply queryError_None in E.
    rewrite answerQueries_valid, answerDirectly_valid by assumption.
    destruct (built_range _ _ _ _ Hroot) as (Hs & He & _).
    rewrite queryRange_contained by (simpl; lia). simpl.
    destruct E as (_ & _ & _ & Hk & Hdistinct). simpl in Hk, Hdistinct.
    unfold selectRank. rewrite decide_False
      by (rewrite (built_distinct _ _ _ _ Hroot); lia).
    simpl. rewrite (built_frequencySorted _ _ _ _ Hroot).
    rewrite (tableOf_unique _ _ _
               (built_tableOf _ _ _ _ Hroot ltac:(lia) ltac:(lia))
               (countRange_tableOf arr 0 (Z.of_nat (length arr) - 1)
                  ltac:(lia) ltac:(lia) ltac:(lia))).
    reflexivity.
Qed.

(** The batch entry point rejects a full-range rank above the number of
    distinct values before the core query is called. *)
Lemma full_range_rank_rejected_by_validation (arr : list Z) (k : Z) :
  arr <> [] ->
  distinctCount arr 0 (Z.of_nat (length arr) - 1) < k ->
  frequencyBasedQueries arr [(0, Z.of_nat (length arr) - 1, k)]
  = inl (KExceedsDistinct k (distinctCount arr 0 (Z.of_nat (length arr) - 1))
           0 (Z.of_nat (length arr) - 1)).
Proof.
  intros Hne Hk. pose proof (nonempty_length arr Hne) as Hlen.
  unfold frequencyBasedQueries.
  rewrite decide_False by (destruct arr; [congruence|discriminate]).
  destruct (buildSegmentTree_root arr Hne) as (root & -> & Hroot). cbn [bind].
  apply answerQueries_invalid. unfold queryError. simpl.
  rewrite decide_False by lia.
  assert (0 <= distinctCount arr 0 (Z.of_nat (length arr) - 1))
    by (unfold distinctCount; lia).
  rewrite decide_False by lia. rewrite decide_True by lia. reflexivity.
Qed.

(** A list with an invalid query has a first one. *)
Lemma first_invalid_query_exists (arr : list Z) (queries : list query) :
  ~ Forall (validQuery arr) queries ->
  exists prefix q rest e,
    queries = prefix ++ q :: rest /\
    Forall (validQuery arr) prefix /\
    queryError arr q = Some e.
Proof.
  induction queries as [|q queries IH]; intros Hinvalid.
  - destruct Hinvalid. constructor.
  - destruct (queryError arr q) as [e|] eqn:E.
    + exists [], q, queries, e. repeat split; [constructor|assumption].
    + apply queryError_None in E.
      destruct IH as (prefix & q' & rest & e & -> & Hprefix & Hq').
      { intros Hall. apply Hinvalid. by constructor. }
      exists (q :: prefix), q', rest, e. repeat split; [by constructor|assumption].
Qed.

(** ** The repository's tests

    The tests run the function exported by [module.exports], which is
    [optimizedFrequencyBasedQueries]; the model answers each test as the
    test expects. *)

Example test_basic :
  optimizedFrequencyBasedQueries [1; 2; 3; 2; 1; 3; 1; 4; 2]
    [(0, 8, 1); (2, 5, 2); (4, 7, 3)] = inr [Num 1; Num 1; Num 4].
Proof. vm_compute. reflexivity. Qed.

Example test_uniform_frequencies :
  optimizedFrequencyBasedQueries [5; 6; 7; 5; 6; 7; 5; 6; 7]
    [(0, 8, 1); (0, 8, 2); (0, 8, 3)] = inr [Num 5; Num 6; Num 7].
Proof. vm_compute. reflexivity. Qed.

Example test_single_element :
  optimizedFrequencyBasedQueries [42; 42; 42; 42; 42] [(0, 4, 1)] = inr [Num 42].
Proof. vm_compute. reflexivity. Qed.

Example test_same_frequency :
  optimizedFrequencyBasedQueries [100; 200; 300; 100; 200; 300]
    [(0, 5, 1); (0, 5, 2); (0, 5, 3)] = inr [Num 100; Num 200; Num 300].
Proof. vm_compute. reflexivity. Qed.

Example test_disjoint_ranges :
  optimizedFrequencyBasedQueries [1; 1; 2; 2; 2; 3; 3; 3; 3; 4; 4; 4; 4; 4]
    [(0, 4, 1); (5, 8, 1); (9, 13, 1)] = inr [Num 2; Num 3; Num 4].
Proof. vm_compute. reflexivity. Qed.

Example test_empty_array :
  optimizedFrequencyBasedQueries [] [(0, 0, 1)] = inl EmptyInput.
Proof. reflexivity. Qed.

Example test_invalid_range :
  optimizedFrequencyBasedQueries [1; 2; 3; 4; 5] [(2, 10, 1)]
  = inl (InvalidRange 2 10).
Proof. reflexivity. Qed.

Example test_invalid_k :
  optimizedFrequencyBasedQueries [1; 2; 3; 4; 5] [(0, 4, 0)] = inl (InvalidK 0).
Proof. reflexivity. Qed.

Example test_k_exceeds_distinct :
  optimizedFrequencyBasedQueries [1; 1; 1; 2; 2] [(0, 4, 3)]
  = inl (KExceedsDistinct 3 2 0 4).
Proof. vm_compute. reflexivity. Qed.

(** The segment-tree entry point on the test of the disjoint ranges: the
    second and third queries get the sentinel. *)
Example segment_tree_on_disjoint_ranges :
  frequencyBasedQueries [1; 1; 2; 2; 2; 3; 3; 3; 3; 4; 4; 4; 4; 4]
    [(0, 4, 1); (5, 8, 1); (9, 13, 1)] = inr [Num 2; Num (-1); Num (-1)].
Proof. vm_compute. reflexivity. Qed.

(** * The claims of the specification *)

(** C1.  The segment-tree entry point and the direct-counting entry point
    disagree on a valid query: on [1,2,3,2,1,3,1,4,2] the query (2,5,2) is
    valid, [frequencyBasedQueries] answers 3 and
    [optimizedFrequencyBasedQueries] answers 1. *)
Theorem segment_tree_differs_from_direct_counting :
  let arr := [1; 2; 3; 2; 1; 3; 1; 4; 2] in
  arr <> [] /\
  validQuery arr (2, 5, 2) /\
  frequencyBasedQueries arr [(2, 5, 2)] = inr [Num 3] /\
  optimizedFrequencyBasedQueries arr [(2, 5, 2)] = inr [Num 1].
Proof.
  cbv zeta. split; [discriminate|]. split; [vm_compute; intuition discriminate|].
  split; vm_compute; reflexivity.
Qed.

(** C2.  In the partial-overlap case a child does not contribute the counts
    of the positions in the intersection of its range with the query range.
    On [2,1,9] and the range (1,2), the left child (indices 0..1) adds one
    occurrence of the value 2, which stands at index 0 only, and the right
    child (index 2) adds nothing for the value 9, which stands at index 2:
    the guard compares the element value with [left] and [right]. *)
Theorem partial_overlap_filters_by_value :
  let arr := [2; 1; 9] in
  exists root lchild rchild leftResult rightResult,
    buildSegmentTree arr 0 2 = inr root /\
    node_left root = Some lchild /\ node_right root = Some rchild /\
    (node_start lchild = 0 /\ node_end lchild = 1) /\
    (node_start rchild = 2 /\ node_end rchild = 2) /\
    queryRange lchild 1 (Z.min 2 ((0 + 2) `div` 2)) 1 = inr leftResult /\
    queryRange rchild (Z.max 1 ((0 + 2) `div` 2 + 1)) 2 1 = inr rightResult /\
    childContribution lchild leftResult 1 2 ∅ !! 2 = Some 1 /\
    occurrences 2 (slice arr 1 2) = 0 /\
    childContribution rchild rightResult 1 2 ∅ !! 9 = None /\
    occurrences 9 (slice arr 2 3) = 1.
Proof.
  cbv zeta. eexists _, _, _, _, _.
  split; [vm_compute; reflexivity|].
  split; [vm_compute; reflexivity|].
  split; [vm_compute; reflexivity|].
  split; [split; vm_compute; reflexivity|].
  split; [split; vm_compute; reflexivity|].
  split; [vm_compute; reflexivity|].
  split; [vm_compute; reflexivity|].
  repeat split; vm_compute; reflexivity.
Qed.

(** C3.  A valid query can be answered by a value that does not occur in
    the queried range, and by the sentinel: on [2,1,9] the valid query
    (1,2,2) is answered 2, which is not among [arr[1..2] = 1,9]; on [5,6]
    the valid query (0,0,1) is answered -1. *)
Theorem valid_query_answered_outside_range :
  (validQuery [2; 1; 9] (1, 2, 2) /\
   frequencyBasedQueries [2; 1; 9] [(1, 2, 2)] = inr [Num 2] /\
   2 ∉ slice [2; 1; 9] 1 3) /\
  (validQuery [5; 6] (0, 0, 1) /\
   frequencyBasedQueries [5; 6] [(0, 0, 1)] = inr [Num (-1)]).
Proof.
  split; (split; [vm_compute; intuition discriminate|]).
  - split; [vm_compute; reflexivity|].
    apply not_elem_of_cons. split; [discriminate|].
    apply not_elem_of_cons. split; [discriminate|]. apply not_elem_of_nil.
  - vm_compute. reflexivity.
Qed.

(** C4.  On [1,2,3,2,1,3,1,4,2] the query (0,8,1) is answered 1 and the
    query (2,5,2) is answered 3, where the direct count of [3,2,1,3] ranks
    the value 1 second. *)
Theorem example_sequence_answers :
  let arr := [1; 2; 3; 2; 1; 3; 1; 4; 2] in
  frequencyBasedQueries arr [(0, 8, 1)] = inr [Num 1] /\
  frequencyBasedQueries arr [(2, 5, 2)] = inr [Num 3] /\
  slice arr 2 6 = [3; 2; 1; 3] /\
  frequencySort (countRange arr 2 5) = [3; 1; 2].
Proof. cbv zeta. repeat split; vm_compute; reflexivity. Qed.

(** C5.  On the tree of a non-empty array, the full-range query
    [(0, n-1, k)] with [k] above the number of distinct values of the array
    returns the sentinel [{ element: -1, frequency: 0 }]; no exception is
    thrown. *)
Theorem full_range_rank_beyond_distinct (arr : list Z) (k : Z) :
  arr <> [] ->
  distinctCount arr 0 (Z.of_nat (length arr) - 1) < k ->
  exists root,
    buildSegmentTree arr 0 (Z.of_nat (length arr) - 1) = inr root /\
    queryRange root 0 (Z.of_nat (length arr) - 1) k = inr noSuchRank.
Proof.
  intros Hne Hk. destruct (buildSegmentTree_root arr Hne) as (root & Hbuild & Hroot).
  exists root. split; [assumption|].
  destruct (built_range _ _ _ _ Hroot) as (Hs & He & _).
  rewrite queryRange_contained by lia.
  unfold selectRank. rewrite decide_True; [reflexivity|].
  rewrite (built_distinct _ _ _ _ Hroot); lia.
Qed.

Lemma full_range_rank_beyond_distinct_witness :
  exists root,
    buildSegmentTree [42; 42; 42; 42; 42] 0 4 = inr root /\
    queryRange root 0 4 2 = inr noSuchRank.
Proof.
  apply (full_range_rank_beyond_distinct [42; 42; 42; 42; 42] 2).
  - discriminate.
  - vm_compute. reflexivity.
Defined.

(** C6, as stated, fails on the empty array: the query (0,0,1) is out of
    range there, and the error raised is the empty-input error. *)
Lemma first_invalid_query_empty_array :
  ~ (forall (arr : list Z) (prefix : list query) (q : query)
            (rest : list query) (e : error),
        Forall (validQuery arr) prefix ->
        queryError arr q = Some e ->
        frequencyBasedQueries arr (prefix ++ q :: rest) = inl e).
Proof.
  intros H.
  specialize (H [] [] (0, 0, 1) [] (InvalidRange 0 0) (Forall_nil_2 _) eq_refl).
  vm_compute in H. discriminate H.
Qed.

(** C6, amended.  On a non-empty array, [frequencyBasedQueries] raises the
    error of the first invalid query of the list: the range error when
    [left < 0], [right >= arr.length] or [left > right], else the rank error
    when [k <= 0], else the distinct-count error when [k] exceeds the number
    of distinct values of [arr[left..right]].  No list of results is
    returned, and the error of an entry is raised without consulting the
    core query, whatever the tree and the results gathered so far. *)
Theorem first_invalid_query_raises (arr : list Z) (prefix : list query)
    (q : query) (rest : list query) (e : error) :
  arr <> [] ->
  Forall (validQuery arr) prefix ->
  queryError arr q = Some e ->
  frequencyBasedQueries arr (prefix ++ q :: rest) = inl e /\
  (forall root results, answerQueries arr root (q :: rest) results = inl e).
Proof.
  intros Hne Hprefix Hq. split.
  - unfold frequencyBasedQueries.
    rewrite decide_False by (destruct arr; [congruence|discriminate]).
    destruct (buildSegmentTree_root arr Hne) as (root & -> & Hroot). simpl.
    destruct (answerQueries_valid_prefix arr _ _ root prefix (q :: rest) []
                Hroot Hprefix) as (answers & _ & ->).
    by apply answerQueries_invalid.
  - intros root results. by apply answerQueries_invalid.
Qed.

Lemma first_invalid_query_raises_witness :
  frequencyBasedQueries [1; 1; 1; 2; 2] ([(0, 4, 1); (3, 4, 1)] ++ (0, 4, 3) :: [(0, 0, 1)])
  = inl (KExceedsDistinct 3 2 0 4) /\
  (forall root results,
     answerQueries [1; 1; 1; 2; 2] root ((0, 4, 3) :: [(0, 0, 1)]) results
     = inl (KExceedsDistinct 3 2 0 4)).
Proof.
  apply (first_invalid_query_raises [1; 1; 1; 2; 2] [(0, 4, 1); (3, 4, 1)]
           (0, 4, 3) [(0, 0, 1)] (KExceedsDistinct 3 2 0 4)).
  - discriminate.
  - repeat constructor; vm_compute; intuition discriminate.
  - vm_compute. reflexivity.
Defined.

(** C7.  [frequencyBasedQueries] raises the empty-input error exactly when
    the array has no element, whatever the queries are.  The check comes
    before the construction of the tree: the construction over the empty
    range [0..-1] would exhaust the call stack. *)
Theorem empty_input_error_iff (arr : list Z) (queries : list query) :
  (frequencyBasedQueries arr queries = inl EmptyInput <-> arr = []) /\
  buildSegmentTree [] 0 (Z.of_nat (length (@nil Z)) - 1) = inl RangeError.
Proof.
  split; [|reflexivity]. split.
  - intros Hres. destruct (decide (arr = [])) as [|Hne]; [assumption|].
    exfalso. revert Hres. unfold frequencyBasedQueries.
    rewrite decide_False by (destruct arr; [congruence|discriminate]).
    destruct (buildSegmentTree_root arr Hne) as (root & -> & Hroot). simpl.
    exact (answerQueries_not_EmptyInput arr _ _ root queries [] Hroot).
  - intros ->. reflexivity.
Qed.

(** C8.  The tie-break of the specification fails on a valid query that
    overlaps nodes partially: on [2,1,2,2] the values 1 and 2 occur once
    each in [arr[1..2]], both ranks are valid, and the larger value 2 is
    answered at rank 1, the smaller value 1 at rank 2. *)
Theorem tie_break_fails_on_partial_overlap :
  let arr := [2; 1; 2; 2] in
  occurrences 1 (slice arr 1 3) = occurrences 2 (slice arr 1 3) /\
  validQuery arr (1, 2, 1) /\ validQuery arr (1, 2, 2) /\
  frequencyBasedQueries arr [(1, 2, 1); (1, 2, 2)] = inr [Num 2; Num 1].
Proof.
  cbv zeta. split; [reflexivity|].
  split; [vm_compute; intuition discriminate|].
  split; [vm_compute; intuition discriminate|].
  vm_compute. reflexivity.
Qed.

(** C9.  Every node of the tree built over a non-empty array satisfies the
    node invariant: its table maps exactly the values of [arr[start..end]]
    to their numbers of occurrences there, the counts sum to
    [end - start + 1], and its ranking lists exactly those values, each
    once, by descending count and ascending value among equal counts. *)
Theorem buildSegmentTree_invariant (arr : list Z) :
  arr <> [] ->
  exists root,
    buildSegmentTree arr 0 (Z.of_nat (length arr) - 1) = inr root /\
    forall n, subnode n root -> nodeInvariant arr n.
Proof.
  intros Hne. destruct (buildSegmentTree_root arr Hne) as (root & Hbuild & Hroot).
  exists root. split; [assumption|]. intros n Hn.
  destruct (built_subnode _ _ _ _ _ Hroot Hn) as (s & e & Hs & He & Hbuilt).
  apply (built_nodeInvariant arr s e); [assumption|lia..].
Qed.

Lemma buildSegmentTree_invariant_witness :
  exists root,
    buildSegmentTree [1; 2; 3; 2; 1] 0 4 = inr root /\
    forall n, subnode n root -> nodeInvariant [1; 2; 3; 2; 1] n.
Proof.
  apply (buildSegmentTree_invariant [1; 2; 3; 2; 1]). discriminate.
Defined.

(** C10.  The sentinel is the number -1, which an array may hold.  On
    [-1,-1] the valid query (0,1,1) is answered by [queryRange] with the
    ranked element of the range, [{ element: -1, frequency: 2 }]: -1 is the
    value of rank 1 of [arr[0..1]], where it occurs twice, and the result is
    not the sentinel [{ element: -1, frequency: 0 }].  The batch keeps the
    [element] field only, so its answer is the sentinel's -1.  On [5,6] the
    valid query (0,0,1) is answered by the sentinel itself, and the batch
    returns the same list: a caller cannot tell the two apart. *)
Theorem sentinel_is_a_possible_element :
  exists root root',
    buildSegmentTree [-1; -1] 0 1 = inr root /\
    validQuery [-1; -1] (0, 1, 1) /\
    rankedAt (slice [-1; -1] 0 2) 1 (-1) /\
    occurrences (-1) (slice [-1; -1] 0 2) = 2 /\
    queryRange root 0 1 1 = inr (mkResult (Num (-1)) (Num 2)) /\
    mkResult (Num (-1)) (Num 2) <> noSuchRank /\
    element (mkResult (Num (-1)) (Num 2)) = element noSuchRank /\
    frequencyBasedQueries [-1; -1] [(0, 1, 1)] = inr [element noSuchRank] /\
    buildSegmentTree [5; 6] 0 1 = inr root' /\
    validQuery [5; 6] (0, 0, 1) /\
    queryRange root' 0 0 1 = inr noSuchRank /\
    frequencyBasedQueries [5; 6] [(0, 0, 1)] = inr [element noSuchRank].
Proof.
  eexists _, _.
  split; [vm_compute; reflexivity|].
  split; [vm_compute; intuition discriminate|].
  split; [split; [left | vm_compute; reflexivity]|].
  split; [vm_compute; reflexivity|].
  split; [vm_compute; reflexivity|].
  split; [discriminate|].
  split; [reflexivity|].
  split; [vm_compute; reflexivity|].
  split; [vm_compute; reflexivity|].
  split; [vm_compute; intuition discriminate|].
  split; vm_compute; reflexivity.
Qed.

(** * Further properties of the program *)

(** ** Ranks within a list of values *)

Lemma outranks_strict l a b :
  outranks l a b -> a <> b -> strictlyOutranks l a b.
Proof. unfold outranks, strictlyOutranks. lia. Qed.

Lemma outranks_not_strict l a b :
  outranks l a b -> ~ strictlyOutranks l b a.
Proof. unfold outranks, strictlyOutranks. lia. Qed.

Lemma filter_none {A} (P : A -> Prop) `{forall x, Decision (P x)} (l : list A) :
  Forall (fun y => ~ P y) l -> filter P l = [].
Proof.
  induction 1 as [|y l Hy Hl IH]; [reflexivity|].
  by rewrite filter_cons_False.
Qed.

(** In a ranking, the values that rank strictly before the one at position
    [i] are the [i] values that precede it. *)
Lemma sorted_filter_prefix l ranking i x :
  StronglySorted (outranks l) ranking -> NoDup ranking ->
  ranking !! i = Some x ->
  filter (fun y => strictlyOutranks l y x) ranking = take i ranking.
Proof.
  intros Hsorted. revert i.
  induction Hsorted as [|a ranking Hsorted IH Hall]; intros i Hnd Hi; [discriminate|].
  apply NoDup_cons in Hnd as [Hfresh Hnd]. destruct i as [|i]; simpl in Hi.
  - injection Hi as ->. simpl.
    rewrite filter_cons_False by (apply outranks_not_strict; unfold outranks; lia).
    apply filter_none. eapply Forall_impl; [exact Hall|].
    intros y Hy. by apply outranks_not_strict.
  - assert (Hx : x ∈ ranking) by (by apply list_elem_of_lookup_2 in Hi).
    rewrite filter_cons_True.
    + simpl. f_equal. by apply IH.
    + apply outranks_strict.
      * by apply (proj1 (Forall_forall _ _) Hall).
      * intros ->. contradiction.
Qed.

Lemma ranking_rankedAt l ranking i x :
  NoDup ranking -> (forall v, v ∈ ranking <-> v ∈ l) ->
  StronglySorted (outranks l) ranking ->
  ranking !! i = Some x ->
  rankedAt l (Z.of_nat i + 1) x.
Proof.
  intros Hnd Hmem Hsorted Hi. split.
  - apply Hmem. by apply list_elem_of_lookup_2 in Hi.
  - assert (Hperm : remove_dups l ≡ₚ ranking).
    { apply NoDup_Permutation; [apply NoDup_remove_dups | assumption |].
      intros v. by rewrite elem_of_remove_dups, Hmem. }
    rewrite Hperm, (sorted_filter_prefix l ranking i x) by assumption.
    rewrite length_take. apply lookup_lt_Some in Hi. lia.
Qed.

Lemma frequencySort_rankedAt l table i x :
  tableOf l table ->
  frequencySort table !! i = Some x ->
  rankedAt l (Z.of_nat i + 1) x.
Proof.
  intros Htable. apply ranking_rankedAt.
  - apply frequencySort_NoDup.
  - intros v. rewrite elem_of_frequencySort. by apply tableOf_is_Some.
  - eapply StronglySorted_weaken; [|apply frequencySort_sorted].
    intros a b. by apply tableOf_rankedBefore.
Qed.

Lemma index_in_bounds (sorted : list Z) (k : Z) :
  1 <= k -> k <= Z.of_nat (length sorted) ->
  exists x, index sorted (k - 1) = Num x /\ sorted !! Z.to_nat (k - 1) = Some x.
Proof.
  intros Hlo Hhi.
  destruct (lookup_lt_is_Some_2 sorted (Z.to_nat (k - 1))) as [x Hx]; [lia|].
  exists x. unfold index. rewrite decide_False by lia. by rewrite Hx.
Qed.

(** The rank of a value is its position in the sorted keys of the table. *)
Lemma selectRank_rankedAt l table k :
  tableOf l table ->
  1 <= k -> k <= Z.of_nat (length (frequencySort table)) ->
  exists x,
    selectRank (frequencySort table) table k
    = mkResult (Num x) (Num (occurrences x l)) /\
    rankedAt l k x.
Proof.
  intros Htable Hlo Hhi.
  destruct (index_in_bounds _ k Hlo Hhi) as (x & Hindex & Hx).
  pose proof (frequencySort_rankedAt l table _ x Htable Hx) as Hrank.
  replace (Z.of_nat (Z.to_nat (k - 1)) + 1) with k in Hrank by lia.
  exists x. split; [|assumption].
  unfold selectRank. rewrite decide_False by lia. rewrite Hindex. simpl.
  rewrite Htable, decide_True by apply Hrank. reflexivity.
Qed.

(** ** The direct-counting entry point *)

Lemma direct_answer_ranked (arr : list Z) (q : query) :
  validQuery arr q ->
  exists x,
    index (frequencySort (countRange arr q.1.1 q.1.2)) (q.2 - 1) = Num x /\
    rankedAt (slice arr q.1.1 (q.1.2 + 1)) q.2 x.
Proof.
  intros (Hlo & Hle & Hhi & Hk & Hdistinct).
  pose proof (countRange_tableOf arr q.1.1 q.1.2 Hlo Hle Hhi) as Htable.
  rewrite <- (countRange_distinct arr q.1.1 q.1.2 Hlo Hle Hhi) in Hdistinct.
  rewrite <- (Permutation_length (frequencySort_Permutation _)) in Hdistinct.
  destruct (index_in_bounds _ q.2 Hk Hdistinct) as (x & Hindex & Hx).
  exists x. split; [assumption|].
  pose proof (frequencySort_rankedAt _ _ _ x Htable Hx) as Hrank.
  by replace (Z.of_nat (Z.to_nat (q.2 - 1)) + 1) with q.2 in Hrank by lia.
Qed.

Lemma answerDirectly_valid_prefix (arr : list Z) (prefix rest : list query)
    (results : list value) :
  Forall (validQuery arr) prefix ->
  exists answers,
    Forall2 (fun q x => rankedAt (slice arr q.1.1 (q.1.2 + 1)) q.2 x)
            prefix answers /\
    answerDirectly arr (prefix ++ rest) results
    = answerDirectly arr rest (results ++ (Num <$> answers)).
Proof.
  intros Hvalid. revert results.
  induction Hvalid as [|q prefix Hq Hvalid IH]; intros results.
  - exists []. split; [constructor|]. simpl. by rewrite app_nil_r.
  - rewrite <- app_comm_cons, answerDirectly_valid by assumption.
    destruct (direct_answer_ranked arr q Hq) as (x & -> & Hrank).
    destruct (IH (results ++ [Num x])) as (answers & Hanswers & ->).
    exists (x :: answers). split; [by constructor|].
    simpl. by rewrite <- app_assoc.
Qed.

Lemma answerDirectly_not_EmptyInput (arr : list Z) (queries : list query)
    (results : list value) :
  answerDirectly arr queries results <> inl EmptyInput.
Proof.
  revert results. induction queries as [|q queries IH]; intros results; [discriminate|].
  destruct (queryError arr q) as [e|] eqn:E.
  - rewrite (answerDirectly_invalid _ _ _ _ _ E).
    intros [= ->]. by apply (queryError_not_EmptyInput arr q).
  - apply queryError_None in E. rewrite answerDirectly_valid by assumption.
    apply IH.
Qed.

Lemma nonempty_decide (arr : list Z) : arr <> [] -> length arr <> 0%nat.
Proof. destruct arr; [congruence|discriminate]. Qed.

(** X1.  On a non-empty array and a list of valid queries, the exported
    function [optimizedFrequencyBasedQueries] returns one answer per query,
    in order, and the answer to [(left, right, k)] is the value of rank [k]
    of [arr[left..right]]: a value of that range that exactly [k - 1]
    distinct values of the range outrank (higher count, or equal count and
    smaller value). *)
Theorem direct_count_answers_by_rank (arr : list Z) (queries : list query) :
  arr <> [] ->
  Forall (validQuery arr) queries ->
  exists answers,
    optimizedFrequencyBasedQueries arr queries = inr (Num <$> answers) /\
    Forall2 (fun q x => rankedAt (slice arr q.1.1 (q.1.2 + 1)) q.2 x)
            queries answers.
Proof.
  intros Hne Hvalid. unfold optimizedFrequencyBasedQueries.
  rewrite decide_False by (by apply nonempty_decide).
  destruct (answerDirectly_valid_prefix arr queries [] [] Hvalid)
    as (answers & Hanswers & Heq).
  rewrite app_nil_r in Heq. exists answers. split; [|assumption].
  rewrite Heq. reflexivity.
Qed.

Lemma direct_count_answers_by_rank_witness :
  exists answers,
    optimizedFrequencyBasedQueries [1; 2; 3; 2; 1; 3; 1; 4; 2]
      [(0, 8, 1); (2, 5, 2); (4, 7, 3)] = inr (Num <$> answers) /\
    Forall2 (fun q x => rankedAt (slice [1; 2; 3; 2; 1; 3; 1; 4; 2] q.1.1 (q.1.2 + 1)) q.2 x)
            [(0, 8, 1); (2, 5, 2); (4, 7, 3)] answers.
Proof.
  apply (direct_count_answers_by_rank [1; 2; 3; 2; 1; 3; 1; 4; 2]
           [(0, 8, 1); (2, 5, 2); (4, 7, 3)]).
  - discriminate.
  - repeat constructor; vm_compute; intuition discriminate.
Defined.

(** X2.  On a non-empty array, [optimizedFrequencyBasedQueries] fails the
    whole batch with the error of the first invalid query: the range error,
    else the rank error, else the distinct-count error; the answers to the
    valid queries before it are dropped. *)
Theorem direct_count_first_invalid (arr : list Z) (prefix : list query)
    (q : query) (rest : list query) (e : error) :
  arr <> [] ->
  Forall (validQuery arr) prefix ->
  queryError arr q = Some e ->
  optimizedFrequencyBasedQueries arr (prefix ++ q :: rest) = inl e.
Proof.
  intros Hne Hprefix Hq. unfold optimizedFrequencyBasedQueries.
  rewrite decide_False by (by apply nonempty_decide).
  destruct (answerDirectly_valid_prefix arr prefix (q :: rest) [] Hprefix)
    as (answers & _ & ->).
  by apply answerDirectly_invalid.
Qed.

Lemma direct_count_first_invalid_witness :
  optimizedFrequencyBasedQueries [1; 2; 3; 4; 5]
    ([(0, 4, 1)] ++ (2, 10, 1) :: [(0, 4, 0)]) = inl (InvalidRange 2 10).
Proof.
  apply (direct_count_first_invalid [1; 2; 3; 4; 5] [(0, 4, 1)] (2, 10, 1)
           [(0, 4, 0)] (InvalidRange 2 10)).
  - discriminate.
  - repeat constructor; vm_compute; intuition discriminate.
  - vm_compute. reflexivity.
Defined.

(** X3.  [optimizedFrequencyBasedQueries] raises the empty-input error
    exactly when the array has no element, whatever the queries are. *)
Theorem direct_count_empty_input_iff (arr : list Z) (queries : list query) :
  optimizedFrequencyBasedQueries arr queries = inl EmptyInput <-> arr = [].
Proof.
  unfold optimizedFrequencyBasedQueries. split.
  - destruct arr; [reflexivity|]. rewrite decide_False by discriminate.
    intros H. by apply answerDirectly_not_EmptyInput in H.
  - intros ->. reflexivity.
Qed.

(** ** Batches *)

Lemma answerQueries_results (arr : list Z) (root : node) (queries : list query)
    (results : list value) :
  answerQueries arr root queries results
  = match answerQueries arr root queries [] with
    | inl e => inl e
    | inr answers => inr (results ++ answers)
    end.
Proof.
  revert results. induction queries as [|q queries IH]; intros results.
  - simpl. by rewrite app_nil_r.
  - simpl. repeat case_decide; try reflexivity.
    destruct (queryRange root q.1.1 q.1.2 q.2) as [e|result]; [reflexivity|].
    simpl. rewrite (IH (results ++ [element result])), (IH [element result]).
    destruct (answerQueries arr root queries []); [reflexivity|].
    by rewrite <- app_assoc.
Qed.

Lemma answerQueries_app (arr : list Z) (root : node) (qs1 qs2 : list query)
    (results : list value) :
  answerQueries arr root (qs1 ++ qs2) results
  = bind (answerQueries arr root qs1 results)
         (fun answers => answerQueries arr root qs2 answers).
Proof.
  revert results. induction qs1 as [|q qs1 IH]; intros results; [reflexivity|].
  simpl. repeat case_decide; try reflexivity.
  destruct (queryRange root q.1.1 q.1.2 q.2) as [e|result]; [reflexivity|].
  simpl. apply IH.
Qed.

Lemma answerDirectly_results (arr : list Z) (queries : list query)
    (results : list value) :
  answerDirectly arr queries results
  = match answerDirectly arr queries [] with
    | inl e => inl e
    | inr answers => inr (results ++ answers)
    end.
Proof.
  revert results. induction queries as [|q queries IH]; intros results.
  - simpl. by rewrite app_nil_r.
  - simpl. repeat case_decide; try reflexivity.
    rewrite (IH (results ++ _)), (IH [_]).
    destruct (answerDirectly arr queries []); [reflexivity|].
    by rewrite <- app_assoc.
Qed.

Lemma answerDirectly_app (arr : list Z) (qs1 qs2 : list query)
    (results : list value) :
  answerDirectly arr (qs1 ++ qs2) results
  = bind (answerDirectly arr qs1 results)
         (fun answers => answerDirectly arr qs2 answers).
Proof.
  revert results. induction qs1 as [|q qs1 IH]; intros results; [reflexivity|].
  simpl. repeat case_decide; try reflexivity. apply IH.
Qed.

(** X4.  Answering the concatenation of two query lists with
    [frequencyBasedQueries] is answering the first list, then the second:
    the error of the first list if it has one, else the error of the
    second, else the answers of the first followed by those of the second.
    No answer depends on the queries around it. *)
Theorem frequencyBasedQueries_app (arr : list Z) (qs1 qs2 : list query) :
  frequencyBasedQueries arr (qs1 ++ qs2)
  = match frequencyBasedQueries arr qs1 with
    | inl e => inl e
    | inr answers1 =>
        match frequencyBasedQueries arr qs2 with
        | inl e => inl e
        | inr answers2 => inr (answers1 ++ answers2)
        end
    end.
Proof.
  unfold frequencyBasedQueries. case_decide; [reflexivity|].
  destruct (buildSegmentTree arr 0 (Z.of_nat (length arr) - 1)) as [e|root];
    [reflexivity|].
  simpl. rewrite answerQueries_app.
  destruct (answerQueries arr root qs1 []) as [e|answers1]; [reflexivity|].
  simpl. apply answerQueries_results.
Qed.

(** X5.  The same composition holds for [optimizedFrequencyBasedQueries]. *)
Theorem optimizedFrequencyBasedQueries_app (arr : list Z) (qs1 qs2 : list query) :
  optimizedFrequencyBasedQueries arr (qs1 ++ qs2)
  = match optimizedFrequencyBasedQueries arr qs1 with
    | inl e => inl e
    | inr answers1 =>
        match optimizedFrequencyBasedQueries arr qs2 with
        | inl e => inl e
        | inr answers2 => inr (answers1 ++ answers2)
        end
    end.
Proof.
  unfold optimizedFrequencyBasedQueries. case_decide; [reflexivity|].
  rewrite answerDirectly_app.
  destruct (answerDirectly arr qs1 []) as [e|answers1]; [reflexivity|].
  simpl. apply answerDirectly_results.
Qed.

Lemma frequencyBasedQueries_valid (arr : list Z) (queries : list query) :
  arr <> [] -> Forall (validQuery arr) queries ->
  exists answers,
    length answers = length queries /\
    frequencyBasedQueries arr queries = inr answers.
Proof.
  intros Hne Hvalid. unfold frequencyBasedQueries.
  rewrite decide_False by (by apply nonempty_decide).
  destruct (buildSegmentTree_root arr Hne) as (root & -> & Hroot). cbn [bind].
  destruct (answerQueries_valid_prefix arr _ _ root queries [] [] Hroot Hvalid)
    as (answers & Hlen & Heq).
  rewrite app_nil_r in Heq. exists answers. split; [assumption|].
  rewrite Heq. reflexivity.
Qed.

Lemma frequencyBasedQueries_invalid (arr : list Z) (prefix : list query)
    (q : query) (rest : list query) (e : error) :
  arr <> [] -> Forall (validQuery arr) prefix -> queryError arr q = Some e ->
  frequencyBasedQueries arr (prefix ++ q :: rest) = inl e.
Proof.
  intros Hne Hprefix Hq. unfold frequencyBasedQueries.
  rewrite decide_False by (by apply nonempty_decide).
  destruct (buildSegmentTree_root arr Hne) as (root & -> & Hroot). cbn [bind].
  destruct (answerQueries_valid_prefix arr _ _ root prefix (q :: rest) []
              Hroot Hprefix) as (answers & _ & ->).
  by apply answerQueries_invalid.
Qed.

Lemma optimizedFrequencyBasedQueries_valid (arr : list Z) (queries : list query) :
  arr <> [] -> Forall (validQuery arr) queries ->
  exists answers,
    length answers = length queries /\
    optimizedFrequencyBasedQueries arr queries = inr answers.
Proof.
  intros Hne Hvalid. unfold optimizedFrequencyBasedQueries.
  rewrite decide_False by (by apply nonempty_decide).
  destruct (answerDirectly_valid_prefix arr queries [] [] Hvalid)
    as (answers & Hanswers & Heq).
  rewrite app_nil_r in Heq. exists (Num <$> answers). split.
  - rewrite length_fmap. symmetry. by apply (Forall2_length _ _ _ Hanswers).
  - rewrite Heq. reflexivity.
Qed.

Lemma optimizedFrequencyBasedQueries_invalid (arr : list Z) (prefix : list query)
    (q : query) (rest : list query) (e : error) :
  arr <> [] -> Forall (validQuery arr) prefix -> queryError arr q = Some e ->
  optimizedFrequencyBasedQueries arr (prefix ++ q :: rest) = inl e.
Proof.
  intros Hne Hprefix Hq. unfold optimizedFrequencyBasedQueries.
  rewrite decide_False by (by apply nonempty_decide).
  destruct (answerDirectly_valid_prefix arr prefix (q :: rest) [] Hprefix)
    as (answers & _ & ->).
  by apply answerDirectly_invalid.
Qed.

(** X6.  The two entry points accept the same inputs and fail alike: one
    raises an error exactly when the other raises the same error, and when
    they return, both return one answer per query.  They can differ in the
    values of the answers only. *)
Theorem entry_points_fail_alike (arr : list Z) (queries : list query) :
  (forall e, frequencyBasedQueries arr queries = inl e <->
             optimizedFrequencyBasedQueries arr queries = inl e) /\
  (forall answers1 answers2,
     frequencyBasedQueries arr queries = inr answers1 ->
     optimizedFrequencyBasedQueries arr queries = inr answers2 ->
     length answers1 = length queries /\ length answers2 = length queries).
Proof.
  destruct (decide (arr = [])) as [->|Hne].
  { split; [intros e; reflexivity | discriminate]. }
  destruct (decide (Forall (validQuery arr) queries)) as [Hvalid|Hinvalid].
  - destruct (frequencyBasedQueries_valid arr queries Hne Hvalid)
      as (a1 & Hlen1 & ->).
    destruct (optimizedFrequencyBasedQueries_valid arr queries Hne Hvalid)
      as (a2 & Hlen2 & ->).
    split; [intros e; split; discriminate|].
    intros answers1 answers2 [= <-] [= <-]. by split.
  - destruct (first_invalid_query_exists arr queries Hinvalid)
      as (prefix & q & rest & e0 & -> & Hprefix & Hq).
    rewrite (frequencyBasedQueries_invalid arr prefix q rest e0 Hne Hprefix Hq).
    rewrite (optimizedFrequencyBasedQueries_invalid arr prefix q rest e0 Hne Hprefix Hq).
    split; [intros e; reflexivity | discriminate].
Qed.

(** ** The shape and the size of the tree *)

Lemma built_children (arr : list Z) (start end_ : Z) (n : node) :
  built arr start end_ n ->
  (start = end_ /\ node_left n = None /\ node_right n = None) \/
  (start < end_ /\
   exists l r,
     node_left n = Some l /\ node_right n = Some r /\
     built arr start ((start + end_) `div` 2) l /\
     built arr ((start + end_) `div` 2 + 1) end_ r).
Proof.
  destruct 1 as [start|start end_ l r Hlt Hl Hr]; [left; by repeat split|].
  right. split; [assumption|]. exists l, r. by repeat split.
Qed.

Lemma built_nodeCount (arr : list Z) (start end_ : Z) (n : node) :
  built arr start end_ n ->
  Z.of_nat (nodeCount n) = 2 * (end_ - start + 1) - 1.
Proof.
  induction 1 as [start|start end_ l r Hlt Hl IHl Hr IHr]; [simpl; lia|].
  cbn [nodeCount]. lia.
Qed.

Lemma built_height (arr : list Z) (start end_ : Z) (n : node) :
  built arr start end_ n ->
  exists h, height n = S h /\
            end_ - start + 1 <= Z.of_nat (2 ^ h) /\
            (forall h', h = S h' -> Z.of_nat (2 ^ h') < end_ - start + 1).
Proof.
  induction 1 as [start|start end_ l r Hlt Hl IHl Hr IHr].
  - exists 0%nat. repeat split; [simpl; lia | discriminate].
  - destruct IHl as (hl & Hhl & Hlup & Hllow), IHr as (hr & Hhr & Hrup & Hrlow).
    pose proof (midpoint_bounds _ _ Hlt) as Hmid.
    assert (Hhalf : 2 * ((start + end_) `div` 2) <= start + end_
                    /\ start + end_ <= 2 * ((start + end_) `div` 2) + 1).
    { pose proof (Z.div_mod (start + end_) 2 ltac:(lia)).
      pose proof (Z.mod_pos_bound (start + end_) 2 ltac:(lia)). lia. }
    exists (S (Nat.max hl hr)). cbn [height]. rewrite Hhl, Hhr.
    split; [reflexivity|]. split.
    + assert (Z.of_nat (2 ^ hl) <= Z.of_nat (2 ^ Nat.max hl hr)).
      { apply inj_le, Nat.pow_le_mono_r; lia. }
      assert (Z.of_nat (2 ^ hr) <= Z.of_nat (2 ^ Nat.max hl hr)).
      { apply inj_le, Nat.pow_le_mono_r; lia. }
      change (2 ^ S (Nat.max hl hr))%nat with (2 * 2 ^ Nat.max hl hr)%nat.
      lia.
    + intros h' Hh'. injection Hh' as <-.
      destruct (Nat.max_spec hl hr) as [[_ ->]|[_ ->]].
      * destruct hr as [|hr']; [simpl; lia|].
        specialize (Hrlow hr' eq_refl).
        change (2 ^ S hr')%nat with (2 * 2 ^ hr')%nat. lia.
      * destruct hl as [|hl']; [simpl; lia|].
        specialize (Hllow hl' eq_refl).
        change (2 ^ S hl')%nat with (2 * 2 ^ hl')%nat. lia.
Qed.

Lemma buildSegmentTree_depth_sound (arr : list Z) (depth : nat)
    (start end_ : Z) (n : node) :
  buildSegmentTree_depth depth arr start end_ = inr n ->
  built arr start end_ n.
Proof.
  revert start end_ n. induction depth as [|depth IH]; intros start end_ n;
    [discriminate|].
  cbn [buildSegmentTree_depth]. cbv zeta.
  destruct (decide (start = end_)) as [<-|Hne].
  - intros [= <-]. exact (built_leaf arr start).
  - destruct (buildSegmentTree_depth depth arr start ((start + end_) `div` 2))
      as [e|l] eqn:El; [discriminate|]. cbn [bind].
    destruct (buildSegmentTree_depth depth arr ((start + end_) `div` 2 + 1) end_)
      as [e|r] eqn:Er; [discriminate|]. cbn [bind].
    intros [= <-].
    pose proof (IH _ _ _ El) as Hl. pose proof (IH _ _ _ Er) as Hr.
    destruct (built_range _ _ _ _ Hl) as (_ & _ & ?).
    destruct (built_range _ _ _ _ Hr) as (_ & _ & ?).
    assert (Hlt : start < end_).
    { destruct (decide (start < end_)); [assumption|].
      assert (end_ < start) by lia.
      assert ((start + end_) `div` 2 < start)
        by (apply Z.div_lt_upper_bound; lia). lia. }
    exact (built_inner arr start end_ l r Hlt Hl Hr).
Qed.

Lemma buildSegmentTree_depth_error (arr : list Z) (depth : nat)
    (start end_ : Z) (e : error) :
  buildSegmentTree_depth depth arr start end_ = inl e -> e = RangeError.
Proof.
  revert start end_. induction depth as [|depth IH]; intros start end_;
    [by intros [= <-]|].
  cbn [buildSegmentTree_depth]. cbv zeta.
  destruct (decide (start = end_)); [discriminate|].
  destruct (buildSegmentTree_depth depth arr start ((start + end_) `div` 2))
    as [e1|l] eqn:El; cbn [bind].
  - intros [= <-]. by apply IH in El.
  - destruct (buildSegmentTree_depth depth arr ((start + end_) `div` 2 + 1) end_)
      as [e2|r] eqn:Er; cbn [bind]; [|discriminate].
    intros [= <-]. by apply IH in Er.
Qed.

Lemma built_unique (arr : list Z) (start end_ : Z) (n1 n2 : node) :
  built arr start end_ n1 -> built arr start end_ n2 -> n1 = n2.
Proof.
  intros H1. revert n2.
  induction H1 as [start|start end_ l r Hlt Hl IHl Hr IHr]; intros n2 H2.
  - destruct (built_children _ _ _ _ H2) as [_|[Hlt _]]; [|lia].
    inversion H2; subst; [reflexivity|lia].
  - inversion H2 as [|s e l2 r2 Hlt2 Hl2 Hr2]; subst; [lia|].
    by rewrite (IHl l2 Hl2), (IHr r2 Hr2).
Qed.

(** X7.  In the tree built over [start..end_], a node is a leaf exactly
    when its range is a single index, and an inner node has two children
    that split its range at the midpoint: the left child covers
    [start..mid], the right child [mid+1..end], with
    [mid = floor((start + end) / 2)].  The root covers [start..end_]. *)
Theorem tree_ranges_split_at_midpoint (arr : list Z) (start end_ : Z) :
  start <= end_ ->
  exists root,
    buildSegmentTree arr start end_ = inr root /\
    node_start root = start /\ node_end root = end_ /\
    forall n, subnode n root ->
      start <= node_start n /\ node_end n <= end_ /\
      ((node_start n = node_end n /\ node_left n = None /\ node_right n = None) \/
       (node_start n < node_end n /\
        exists l r,
          node_left n = Some l /\ node_right n = Some r /\
          node_start l = node_start n /\
          node_end l = (node_start n + node_end n) `div` 2 /\
          node_start r = (node_start n + node_end n) `div` 2 + 1 /\
          node_end r = node_end n)).
Proof.
  intros Hle. destruct (buildSegmentTree_built arr start end_ Hle)
    as (root & Hbuild & Hroot).
  exists root. split; [assumption|].
  destruct (built_range _ _ _ _ Hroot) as (Hs & He & _).
  split; [assumption|]. split; [assumption|]. intros n Hn.
  destruct (built_subnode _ _ _ _ _ Hroot Hn) as (s & e & Hlo & Hhi & Hbuilt).
  destruct (built_range _ _ _ _ Hbuilt) as (-> & -> & _).
  split; [assumption|]. split; [assumption|].
  destruct (built_children _ _ _ _ Hbuilt)
    as [?|(Hlt & l & r & Hl & Hr & Hbl & Hbr)]; [by left|].
  right. split; [assumption|]. exists l, r.
  destruct (built_range _ _ _ _ Hbl) as (? & ? & _).
  destruct (built_range _ _ _ _ Hbr) as (? & ? & _).
  by repeat split.
Qed.

Lemma tree_ranges_split_at_midpoint_witness :
  exists root,
    buildSegmentTree [7; 7; 8; 9; 7] 0 4 = inr root /\
    node_start root = 0 /\ node_end root = 4 /\
    forall n, subnode n root ->
      0 <= node_start n /\ node_end n <= 4 /\
      ((node_start n = node_end n /\ node_left n = None /\ node_right n = None) \/
       (node_start n < node_end n /\
        exists l r,
          node_left n = Some l /\ node_right n = Some r /\
          node_start l = node_start n /\
          node_end l = (node_start n + node_end n) `div` 2 /\
          node_start r = (node_start n + node_end n) `div` 2 + 1 /\
          node_end r = node_end n)).
Proof. apply (tree_ranges_split_at_midpoint [7; 7; 8; 9; 7] 0 4). lia. Defined.

(** X8.  The tree built over a range of [n = end_ - start + 1] indices has
    [2n - 1] nodes. *)
Theorem tree_has_2n_minus_1_nodes (arr : list Z) (start end_ : Z) :
  start <= end_ ->
  exists root,
    buildSegmentTree arr start end_ = inr root /\
    Z.of_nat (nodeCount root) = 2 * (end_ - start + 1) - 1.
Proof.
  intros Hle. destruct (buildSegmentTree_built arr start end_ Hle)
    as (root & Hbuild & Hroot).
  exists root. split; [assumption|]. by apply (built_nodeCount arr).
Qed.

Lemma tree_has_2n_minus_1_nodes_witness :
  exists root,
    buildSegmentTree [7; 7; 8; 9; 7] 0 4 = inr root /\
    Z.of_nat (nodeCount root) = 2 * (4 - 0 + 1) - 1.
Proof. apply (tree_has_2n_minus_1_nodes [7; 7; 8; 9; 7] 0 4). lia. Defined.

(** X9.  The tree is balanced: built over [n = end_ - start + 1] indices,
    its height [h] (nodes on the longest path from the root to a leaf)
    satisfies [n <= 2^(h-1) < 2n], that is [h = ceil(log2 n) + 1]. *)
Theorem tree_height_is_logarithmic (arr : list Z) (start end_ : Z) :
  start <= end_ ->
  exists root,
    buildSegmentTree arr start end_ = inr root /\
    (1 <= height root)%nat /\
    end_ - start + 1 <= Z.of_nat (2 ^ (height root - 1)) /\
    Z.of_nat (2 ^ (height root - 1)) < 2 * (end_ - start + 1).
Proof.
  intros Hle. destruct (buildSegmentTree_built arr start end_ Hle)
    as (root & Hbuild & Hroot).
  exists root. split; [assumption|].
  destruct (built_height _ _ _ _ Hroot) as (h & -> & Hup & Hlow).
  replace (S h - 1)%nat with h by lia.
  split; [lia|]. split; [assumption|].
  destruct h as [|h']; [simpl; lia|].
  specialize (Hlow h' eq_refl).
  change (2 ^ S h')%nat with (2 * 2 ^ h')%nat. lia.
Qed.

Lemma tree_height_is_logarithmic_witness :
  exists root,
    buildSegmentTree [7; 7; 8; 9; 7] 0 4 = inr root /\
    (1 <= height root)%nat /\
    4 - 0 + 1 <= Z.of_nat (2 ^ (height root - 1)) /\
    Z.of_nat (2 ^ (height root - 1)) < 2 * (4 - 0 + 1).
Proof. apply (tree_height_is_logarithmic [7; 7; 8; 9; 7] 0 4). lia. Defined.

(** X10.  [buildSegmentTree] returns a tree exactly when [start <= end_].
    With [end_ < start] the recursion never reaches a leaf: it exhausts the
    call stack, however deep the stack is.  With [start <= end_] the result
    does not depend on the depth allowed: any depth either is exhausted or
    yields the same tree, and no other error is raised. *)
Theorem buildSegmentTree_terminates_iff (arr : list Z) (start end_ : Z) :
  ((exists root, buildSegmentTree arr start end_ = inr root) <-> start <= end_) /\
  (end_ < start ->
   forall depth, buildSegmentTree_depth depth arr start end_ = inl RangeError) /\
  (forall depth,
     buildSegmentTree_depth depth arr start end_ = inl RangeError \/
     buildSegmentTree_depth depth arr start end_ = buildSegmentTree arr start end_).
Proof.
  split; [|split].
  - split.
    + intros [root Hroot]. destruct (decide (start <= end_)); [assumption|].
      unfold buildSegmentTree in Hroot.
      rewrite buildSegmentTree_depth_overflow in Hroot by lia. discriminate.
    + intros Hle. destruct (buildSegmentTree_built arr start end_ Hle)
        as (root & Hbuild & _). eauto.
  - intros Hlt depth. by apply buildSegmentTree_depth_overflow.
  - intros depth.
    destruct (buildSegmentTree_depth depth arr start end_) as [e|n] eqn:E.
    + left. f_equal. by apply buildSegmentTree_depth_error in E.
    + right. apply buildSegmentTree_depth_sound in E.
      destruct (built_range _ _ _ _ E) as (_ & _ & Hle).
      destruct (buildSegmentTree_built arr start end_ Hle) as (root & -> & Hroot).
      f_equal. by apply (built_unique arr start end_).
Qed.

(** ** The answers of [queryRange] *)

Lemma queryRange_built_total (arr : list Z) (start end_ : Z) (n : node) :
  built arr start end_ n ->
  forall left right k, exists result, queryRange n left right k = inr result.
Proof.
  induction 1 as [start|start end_ l r Hlt Hl IHl Hr IHr]; intros left right k.
  - simpl. destruct (decide (left <= start /\ start <= right)); [eauto|].
    destruct (decide (start < left \/ right < start)); [eauto|lia].
  - simpl. destruct (decide (left <= start /\ end_ <= right)); [eauto|].
    destruct (decide (end_ < left \/ right < start)); [eauto|].
    destruct (decide (left <= (start + end_) `div` 2)).
    + destruct (IHl left (Z.min right ((start + end_) `div` 2)) 1) as [res1 ->].
      simpl. destruct (decide ((start + end_) `div` 2 < right)).
      * destruct (IHr (Z.max left ((start + end_) `div` 2 + 1)) right 1)
          as [res2 ->]. simpl. eauto.
      * simpl. eauto.
    + simpl. destruct (decide ((start + end_) `div` 2 < right)).
      * destruct (IHr (Z.max left ((start + end_) `div` 2 + 1)) right 1)
          as [res2 ->]. simpl. eauto.
      * simpl. eauto.
Qed.

Lemma selectRank_element (table : gmap Z Z) (k : Z) :
  element (selectRank (frequencySort table) table k) = Num (-1) \/
  (k <= 0 /\ element (selectRank (frequencySort table) table k) = Undefined) \/
  (exists x, element (selectRank (frequencySort table) table k) = Num x /\
             is_Some (table !! x)).
Proof.
  unfold selectRank.
  destruct (decide (Z.of_nat (length (frequencySort table)) < k)); [by left|].
  right. simpl. destruct (decide (k <= 0)) as [Hk|Hk].
  - left. split; [assumption|]. unfold index. by rewrite decide_True by lia.
  - right. destruct (index_in_bounds (frequencySort table) k) as (x & -> & Hx);
      [lia..|].
    exists x. split; [reflexivity|].
    apply elem_of_frequencySort. by apply list_elem_of_lookup_2 in Hx.
Qed.

Lemma childContribution_keys (child : node) (childResult : queryResult)
    (left right : Z) (table : gmap Z Z) (v : Z) :
  is_Some (childContribution child childResult left right table !! v) ->
  is_Some (table !! v) \/
  (left <= v <= right /\ is_Some (node_frequencyMap child !! v)).
Proof.
  unfold childContribution. case_decide; [|by left].
  rewrite mergeInRange_lookup.
  destruct (table !! v) as [c|]; [left; eauto|].
  destruct ((left <=? v) && (v <=? right)) eqn:E; simpl; [|by intros [? [=]]].
  intros Hsome. right. split; [lia|].
  destruct (node_frequencyMap child !! v); [eauto|].
  by destruct Hsome as [? [=]].
Qed.

Lemma mergeInto_keys (source table : gmap Z Z) (v : Z) :
  is_Some (mergeInto source table !! v) <->
  is_Some (table !! v) \/ is_Some (source !! v).
Proof.
  rewrite mergeInto_lookup.
  destruct (table !! v), (source !! v); simpl; unfold addCounts; split;
    intros H; eauto; destruct H as [[? [=]]|[? [=]]].
Qed.

(** The answer of a node that the query range does not cover. *)
Lemma queryRange_not_covered (arr : list Z) (start end_ : Z) (n : node)
    (left right k : Z) :
  built arr start end_ n ->
  ~ (left <= start /\ end_ <= right) ->
  exists result,
    queryRange n left right k = inr result /\
    (element result = Num (-1) \/
     (k <= 0 /\ element result = Undefined) \/
     (exists x, element result = Num x /\ left <= x <= right /\
                is_Some (node_frequencyMap n !! x))).
Proof.
  intros Hn Hnot.
  destruct Hn as [start|start end_ l r Hlt Hl Hr].
  - simpl. rewrite decide_False by assumption.
    rewrite decide_True by lia. eexists. split; [reflexivity|by left].
  - simpl. rewrite decide_False by assumption.
    destruct (decide (end_ < left \/ right < start));
      [eexists; split; [reflexivity|by left]|].
    destruct (queryRange_built_total _ _ _ _ Hl left
                (Z.min right ((start + end_) `div` 2)) 1) as [res1 E1].
    destruct (queryRange_built_total _ _ _ _ Hr
                (Z.max left ((start + end_) `div` 2 + 1)) right 1) as [res2 E2].
    rewrite E1, E2. clear E1 E2.
    set (mid := (start + end_) `div` 2).
    set (table1 := if decide (left <= mid)
                   then childContribution l res1 left right ∅ else ∅).
    set (table2 := if decide (mid < right)
                   then childContribution r res2 left right table1 else table1).
    assert (H1 : forall v, is_Some (table1 !! v) ->
                left <= v <= right /\ is_Some (node_frequencyMap l !! v)).
    { intros v. subst table1. case_decide; [|by intros [? [=]]].
      intros [[? [=]]|?]%childContribution_keys. assumption. }
    assert (Hkeys : forall v, is_Some (table2 !! v) ->
              left <= v <= right /\
              (is_Some (node_frequencyMap l !! v) \/
               is_Some (node_frequencyMap r !! v))).
    { intros v. subst table2. case_decide.
      - intros [Hv|[? ?]]%childContribution_keys; [destruct (H1 v Hv)|]; auto.
      - intros Hv. destruct (H1 v Hv). auto. }
    exists (selectRank (frequencySort table2) table2 k). split.
    + subst table2 table1. repeat case_decide; reflexivity.
    + destruct (selectRank_element table2 k) as [?|[?|(x & Hx & Hsome)]];
        [by left | by right; left |].
      right. right. exists x. split; [assumption|].
      destruct (Hkeys x Hsome) as [Hrange Hchild]. split; [assumption|].
      apply mergeInto_keys. rewrite mergeInto_keys.
      destruct Hchild; auto.
Qed.

Lemma elem_of_slice (arr : list Z) (a b x : Z) : x ∈ slice arr a b -> x ∈ arr.
Proof.
  unfold slice. intros Hx.
  apply subseteq_take in Hx. by apply subseteq_drop in Hx.
Qed.

Lemma built_key_in_array (arr : list Z) (start end_ : Z) (n : node) (x : Z) :
  built arr start end_ n ->
  0 <= start -> end_ < Z.of_nat (length arr) ->
  is_Some (node_frequencyMap n !! x) -> x ∈ arr.
Proof.
  intros Hn Hlo Hhi Hx.
  apply (tableOf_is_Some _ _ x (built_tableOf _ _ _ _ Hn Hlo Hhi)) in Hx.
  by apply elem_of_slice in Hx.
Qed.

(** X11.  On every node of a tree built by [buildSegmentTree], [queryRange]
    returns a result for every [left], [right] and [k], valid or not: it
    never reads a child of a leaf, so it never throws. *)
Theorem queryRange_never_throws (arr : list Z) (start end_ : Z) :
  start <= end_ ->
  exists root,
    buildSegmentTree arr start end_ = inr root /\
    forall n, subnode n root ->
    forall left right k, exists result, queryRange n left right k = inr result.
Proof.
  intros Hle. destruct (buildSegmentTree_built arr start end_ Hle)
    as (root & Hbuild & Hroot).
  exists root. split; [assumption|]. intros n Hn.
  destruct (built_subnode _ _ _ _ _ Hroot Hn) as (s & e & _ & _ & Hbuilt).
  by apply (queryRange_built_total arr s e).
Qed.

Lemma queryRange_never_throws_witness :
  exists root,
    buildSegmentTree [5; 6; 5] 0 2 = inr root /\
    forall n, subnode n root ->
    forall left right k, exists result, queryRange n left right k = inr result.
Proof. apply (queryRange_never_throws [5; 6; 5] 0 2). lia. Defined.

(** X12.  A query whose range covers the whole array is answered from the
    root alone, by the rank of the value in the array: for
    [1 <= k <= number of distinct values] the result is the value of rank
    [k] together with its number of occurrences in the array; for [k]
    above that number it is the sentinel; for [k <= 0] the element and the
    frequency are [undefined]. *)
Theorem whole_array_query (arr : list Z) (left right k : Z) :
  arr <> [] ->
  left <= 0 -> Z.of_nat (length arr) - 1 <= right ->
  exists root,
    buildSegmentTree arr 0 (Z.of_nat (length arr) - 1) = inr root /\
    (k <= 0 ->
     queryRange root left right k = inr (mkResult Undefined Undefined)) /\
    (1 <= k <= distinctCount arr 0 (Z.of_nat (length arr) - 1) ->
     exists x,
       queryRange root left right k
       = inr (mkResult (Num x) (Num (occurrences x arr))) /\
       rankedAt arr k x) /\
    (distinctCount arr 0 (Z.of_nat (length arr) - 1) < k ->
     queryRange root left right k = inr noSuchRank).
Proof.
  intros Hne Hleft Hright. pose proof (nonempty_length arr Hne) as Hlen.
  destruct (buildSegmentTree_root arr Hne) as (root & Hbuild & Hroot).
  exists root. split; [assumption|].
  destruct (built_range _ _ _ _ Hroot) as (Hs & He & _).
  rewrite queryRange_contained by lia.
  pose proof (built_distinct _ _ _ _ Hroot ltac:(lia) ltac:(lia)) as Hdistinct.
  pose proof (built_tableOf _ _ _ _ Hroot ltac:(lia) ltac:(lia)) as Htable.
  replace (Z.of_nat (length arr) - 1 + 1) with (Z.of_nat (length arr)) in Htable
    by lia.
  rewrite slice_all in Htable.
  split; [|split].
  - intros Hk. unfold selectRank. rewrite decide_False by lia.
    unfold index. rewrite decide_True by lia. reflexivity.
  - intros [Hk1 Hk2]. rewrite (built_frequencySorted _ _ _ _ Hroot) in *.
    destruct (selectRank_rankedAt arr _ k Htable) as (x & -> & Hrank); [lia..|].
    eauto.
  - intros Hk. unfold selectRank. rewrite decide_True by lia. reflexivity.
Qed.

Lemma whole_array_query_witness :
  exists root x,
    buildSegmentTree [100; 200; 300; 100; 200; 300] 0 5 = inr root /\
    queryRange root 0 5 2
    = inr (mkResult (Num x) (Num (occurrences x [100; 200; 300; 100; 200; 300]))) /\
    rankedAt [100; 200; 300; 100; 200; 300] 2 x.
Proof.
  destruct (whole_array_query [100; 200; 300; 100; 200; 300] 0 5 2)
    as (root & Hbuild & _ & Hrank & _).
  - discriminate.
  - lia.
  - simpl. lia.
  - destruct Hrank as (x & Hquery & Hx).
    + vm_compute. intuition discriminate.
    + exists root, x. auto.
Defined.

(** X13.  A query whose range does not cover the whole array is answered
    by the sentinel or by a value of the array that lies, as a number,
    between [left] and [right]: the partial-overlap branch keeps the keys
    [left <= element <= right] only.  ([undefined] is answered for
    [k <= 0] only.) *)
Theorem uncovered_answer_lies_between_bounds (arr : list Z) (left right k : Z) :
  arr <> [] ->
  ~ (left <= 0 /\ Z.of_nat (length arr) - 1 <= right) ->
  exists root result,
    buildSegmentTree arr 0 (Z.of_nat (length arr) - 1) = inr root /\
    queryRange root left right k = inr result /\
    (element result = Num (-1) \/
     (k <= 0 /\ element result = Undefined) \/
     (exists x, element result = Num x /\ left <= x <= right /\ x ∈ arr)).
Proof.
  intros Hne Hnot. pose proof (nonempty_length arr Hne) as Hlen.
  destruct (buildSegmentTree_root arr Hne) as (root & Hbuild & Hroot).
  destruct (queryRange_not_covered arr _ _ root left right k Hroot Hnot)
    as (result & Hquery & Hcases).
  exists root, result. split; [assumption|]. split; [assumption|].
  destruct Hcases as [?|[?|(x & Hx & Hrange & Hkey)]];
    [by left | by right; left |].
  right. right. exists x. split; [assumption|]. split; [assumption|].
  apply (built_key_in_array arr _ _ root x Hroot); [lia..|assumption].
Qed.

Lemma uncovered_answer_lies_between_bounds_witness :
  exists root result,
    buildSegmentTree [2; 1; 9] 0 2 = inr root /\
    queryRange root 1 2 2 = inr result /\
    (element result = Num (-1) \/
     (2 <= 0 /\ element result = Undefined) \/
     (exists x, element result = Num x /\ 1 <= x <= 2 /\ x ∈ [2; 1; 9])).
Proof.
  apply (uncovered_answer_lies_between_bounds [2; 1; 9] 1 2 2).
  - discriminate.
  - simpl. lia.
Defined.

Lemma answerQueries_sentinels (arr : list Z) (root : node)
    (queries : list query) (results : list value) :
  arr <> [] ->
  built arr 0 (Z.of_nat (length arr) - 1) root ->
  (forall x, x ∈ arr -> x < 0 \/ Z.of_nat (length arr) <= x) ->
  Forall (fun q => validQuery arr q /\ ~ fullRange arr q) queries ->
  answerQueries arr root queries results
  = inr (results ++ replicate (length queries) (Num (-1))).
Proof.
  intros Hne Hroot Hvalues Hqueries. revert results.
  induction Hqueries as [|q queries [Hq Hnotfull] _ IH]; intros results.
  - simpl. by rewrite app_nil_r.
  - rewrite answerQueries_valid by assumption.
    pose proof Hq as (Hlo & Hle & Hhi & Hk & _).
    destruct (queryRange_not_covered arr _ _ root q.1.1 q.1.2 q.2 Hroot)
      as (result & -> & Hcases).
    { unfold fullRange in Hnotfull. lia. }
    simpl. rewrite IH. rewrite <- app_assoc. simpl.
    destruct Hcases as [->|[[? _]|(x & _ & Hrange & Hkey)]]; [reflexivity|lia|].
    apply (built_key_in_array arr _ _ root x Hroot) in Hkey; [|lia..].
    destruct (Hvalues x Hkey); lia.
Qed.

(** X14.  When no value of the array is a valid index (each is negative or
    at least [arr.length]), [frequencyBasedQueries] answers -1 to every
    valid query whose range is not the whole array. *)
Theorem values_beyond_indices_answer_sentinel (arr : list Z)
    (queries : list query) :
  arr <> [] ->
  (forall x, x ∈ arr -> x < 0 \/ Z.of_nat (length arr) <= x) ->
  Forall (fun q => validQuery arr q /\ ~ fullRange arr q) queries ->
  frequencyBasedQueries arr queries
  = inr (replicate (length queries) (Num (-1))).
Proof.
  intros Hne Hvalues Hqueries. unfold frequencyBasedQueries.
  rewrite decide_False by (by apply nonempty_decide).
  destruct (buildSegmentTree_root arr Hne) as (root & -> & Hroot). cbn [bind].
  by rewrite (answerQueries_sentinels arr root queries [] Hne Hroot Hvalues Hqueries).
Qed.

Lemma values_beyond_indices_answer_sentinel_witness :
  frequencyBasedQueries [100; 200; 300; 100; 200; 300] [(0, 2, 1); (1, 5, 3)]
  = inr (replicate (length [(0, 2, 1); (1, 5, 3)]) (Num (-1))).
Proof.
  apply (values_beyond_indices_answer_sentinel
           [100; 200; 300; 100; 200; 300] [(0, 2, 1); (1, 5, 3)]).
  - discriminate.
  - intros x Hx. right. simpl.
    repeat (apply elem_of_cons in Hx as [->|Hx]; [lia|]).
    by apply elem_of_nil in Hx.
  - repeat constructor; try (vm_compute; intuition discriminate);
      unfold fullRange; simpl; lia.
Defined.

Lemma queryRange_root_element (arr : list Z) (root : node) (q : query) :
  arr <> [] ->
  built arr 0 (Z.of_nat (length arr) - 1) root ->
  validQuery arr q ->
  exists result x,
    queryRange root q.1.1 q.1.2 q.2 = inr result /\
    element result = Num x /\ (x = -1 \/ x ∈ arr).
Proof.
  intros Hne Hroot (Hlo & Hle & Hhi & Hk & _).
  pose proof (nonempty_length arr Hne) as Hlen.
  destruct (decide (q.1.1 <= 0 /\ Z.of_nat (length arr) - 1 <= q.1.2))
    as [Hcover|Hnot].
  - destruct (built_range _ _ _ _ Hroot) as (Hs & He & _).
    rewrite queryRange_contained by lia.
    rewrite (built_frequencySorted _ _ _ _ Hroot).
    eexists. destruct (selectRank_element (node_frequencyMap root) q.2)
      as [Hx|[[? _]|(x & Hx & Hkey)]]; [|lia|].
    + exists (-1). split; [reflexivity|]. split; [assumption|by left].
    + exists x. split; [reflexivity|]. split; [assumption|]. right.
      apply (built_key_in_array arr _ _ root x Hroot); [lia..|assumption].
  - destruct (queryRange_not_covered arr _ _ root q.1.1 q.1.2 q.2 Hroot Hnot)
      as (result & Hquery & [Hx|[[? _]|(x & Hx & _ & Hkey)]]); [|lia|].
    + exists result, (-1). split; [assumption|]. split; [assumption|by left].
    + exists result, x. split; [assumption|]. split; [assumption|]. right.
      apply (built_key_in_array arr _ _ root x Hroot); [lia..|assumption].
Qed.

(** X15.  On a non-empty array and valid queries, [frequencyBasedQueries]
    returns one answer per query, and every answer is a number that is a
    value of the array or -1: never [undefined], never a value foreign to
    the array. *)
Theorem answers_are_array_values_or_sentinel (arr : list Z)
    (queries : list query) :
  arr <> [] ->
  Forall (validQuery arr) queries ->
  exists answers,
    frequencyBasedQueries arr queries = inr answers /\
    length answers = length queries /\
    Forall (fun v => exists x, v = Num x /\ (x = -1 \/ x ∈ arr)) answers.
Proof.
  intros Hne Hvalid. unfold frequencyBasedQueries.
  rewrite decide_False by (by apply nonempty_decide).
  destruct (buildSegmentTree_root arr Hne) as (root & -> & Hroot). cbn [bind].
  assert (Hgen : forall results,
            exists answers,
              answerQueries arr root queries results = inr (results ++ answers) /\
              length answers = length queries /\
              Forall (fun v => exists x, v = Num x /\ (x = -1 \/ x ∈ arr)) answers).
  { induction Hvalid as [|q queries Hq _ IH]; intros results.
    - exists []. rewrite app_nil_r. by repeat split.
    - rewrite answerQueries_valid by assumption.
      destruct (queryRange_root_element arr root q Hne Hroot Hq)
        as (result & x & -> & Hx & Hin). simpl.
      destruct (IH (results ++ [element result]))
        as (answers & -> & Hlen & Hall).
      exists (element result :: answers). rewrite <- app_assoc.
      split; [reflexivity|]. split; [simpl; lia|].
      constructor; [eauto|assumption]. }
  destruct (Hgen []) as (answers & -> & Hlen & Hall). eauto.
Qed.

Lemma answers_are_array_values_or_sentinel_witness :
  exists answers,
    frequencyBasedQueries [2; 1; 9] [(1, 2, 2); (0, 2, 3)] = inr answers /\
    length answers = length [(1, 2, 2); (0, 2, 3)] /\
    Forall (fun v => exists x, v = Num x /\ (x = -1 \/ x ∈ [2; 1; 9])) answers.
Proof.
  apply (answers_are_array_values_or_sentinel [2; 1; 9] [(1, 2, 2); (0, 2, 3)]).
  - discriminate.
  - repeat constructor; vm_compute; intuition discriminate.
Defined.

(** ** Merging, comparing and sorting *)

Lemma sumOfCounts_foldl (entries : list (Z * Z)) (table : gmap Z Z) :
  sumOfCounts
    (foldl (fun acc '(element, frequency) => addFrequency acc element frequency)
           table entries)
  = sumOfCounts table + foldr (fun entry acc => entry.2 + acc) 0 entries.
Proof.
  revert table. induction entries as [|[e f] entries IH]; intros table.
  - simpl. lia.
  - simpl. rewrite IH, sumOfCounts_addFrequency. lia.
Qed.

Lemma sumOfCounts_entries (table : gmap Z Z) :
  sumOfCounts table = foldr (fun entry acc => entry.2 + acc) 0 (map_to_list table).
Proof.
  unfold sumOfCounts. rewrite map_fold_foldr.
  induction (map_to_list table) as [|[e f] entries IH]; [reflexivity|].
  simpl. by rewrite IH.
Qed.

(** X16.  The merge loop of [buildSegmentTree] adds two tables key by key:
    the merged count of a value is the sum of its counts in the two tables,
    the merged keys are the keys of either table, the counts of the result
    sum to the two sums, and merging the left child first or the right
    child first gives the same table. *)
Theorem mergeInto_adds_counts (source table : gmap Z Z) :
  (forall v, frequencyOf (mergeInto source table) v
             = frequencyOf table v + frequencyOf source v) /\
  (forall v, is_Some (mergeInto source table !! v) <->
             is_Some (table !! v) \/ is_Some (source !! v)) /\
  sumOfCounts (mergeInto source table) = sumOfCounts table + sumOfCounts source /\
  mergeInto source (mergeInto table ∅) = mergeInto table (mergeInto source ∅).
Proof.
  split; [|split; [|split]].
  - intros v. unfold frequencyOf. rewrite mergeInto_lookup.
    destruct (table !! v), (source !! v); simpl; lia.
  - intros v. apply mergeInto_keys.
  - unfold mergeInto. rewrite sumOfCounts_foldl, (sumOfCounts_entries source).
    reflexivity.
  - apply map_eq. intros v. rewrite !mergeInto_lookup, lookup_empty.
    destruct (table !! v), (source !! v); simpl; unfold addCounts;
      try reflexivity. f_equal. lia.
Qed.

(** X17.  The comparator of the three sorts is a consistent strict order:
    it is negative exactly when [a] has the higher count, or the same count
    and the smaller value; swapping the arguments negates it; it is zero
    for equal arguments only; and it is transitive. *)
Theorem compareByFrequency_is_strict_order (table : gmap Z Z) (a b c : Z) :
  (compareByFrequency table a b < 0 <->
   frequencyOf table b < frequencyOf table a \/
   (frequencyOf table a = frequencyOf table b /\ a < b)) /\
  compareByFrequency table b a = - compareByFrequency table a b /\
  (compareByFrequency table a b = 0 <-> a = b) /\
  (compareByFrequency table a b < 0 -> compareByFrequency table b c < 0 ->
   compareByFrequency table a c < 0).
Proof.
  assert (Hrefl : forall x, compareByFrequency table x x = 0).
  { intros x. unfold compareByFrequency. cbv zeta. case_decide; lia. }
  split; [|split; [|split]].
  - unfold compareByFrequency. cbv zeta. case_decide; lia.
  - unfold compareByFrequency. cbv zeta. repeat case_decide; lia.
  - split; [|intros ->; apply Hrefl].
    unfold compareByFrequency. cbv zeta. case_decide; lia.
  - unfold compareByFrequency. cbv zeta. repeat case_decide; lia.
Qed.

(** X18.  The sorted array of a table is the only arrangement of its keys
    in which every element may stand before the next one according to the
    comparator: the order in which the keys are enumerated and the sorting
    algorithm do not show in the result. *)
Theorem frequencySort_is_the_sorted_arrangement (table : gmap Z Z)
    (sorted : list Z) :
  sorted = frequencySort table <->
  sorted ≡ₚ (map_to_list table).*1 /\ Sorted (rankedBefore table) sorted.
Proof.
  split.
  - intros ->. split; [apply frequencySort_Permutation|].
    apply Sorted_merge_sort. apply _.
  - intros [Hperm Hsorted].
    apply (Sorted_unique (rankedBefore table)); [assumption| |].
    + apply Sorted_merge_sort. apply _.
    + rewrite Hperm. symmetry. apply frequencySort_Permutation.
Qed.

Lemma answer_full_range (arr : list Z) (root : node) (q : query) :
  arr <> [] ->
  built arr 0 (Z.of_nat (length arr) - 1) root ->
  validQuery arr q -> fullRange arr q ->
  exists result,
    queryRange root q.1.1 q.1.2 q.2 = inr result /\
    element result = index (frequencySort (countRange arr q.1.1 q.1.2)) (q.2 - 1).
Proof.
  intros Hne Hroot (_ & _ & _ & Hk & Hdistinct) [Hleft Hright].
  pose proof (nonempty_length arr Hne) as Hlen.
  rewrite Hleft, Hright in *.
  destruct (built_range _ _ _ _ Hroot) as (Hs & He & _).
  rewrite queryRange_contained by lia. eexists. split; [reflexivity|].
  unfold selectRank. rewrite decide_False
    by (rewrite (built_distinct _ _ _ _ Hroot); lia).
  simpl. rewrite (built_frequencySorted _ _ _ _ Hroot).
  by rewrite (tableOf_unique _ _ _
                (built_tableOf _ _ _ _ Hroot ltac:(lia) ltac:(lia))
                (countRange_tableOf arr 0 (Z.of_nat (length arr) - 1)
                   ltac:(lia) ltac:(lia) ltac:(lia))).
Qed.

(** X19.  On queries whose range is the whole array, the two entry points
    give the same outcome, answers and errors alike, for every rank [k]. *)
Theorem whole_array_queries_agree (arr : list Z) (queries : list query) :
  Forall (fullRange arr) queries ->
  frequencyBasedQueries arr queries = optimizedFrequencyBasedQueries arr queries.
Proof.
  intros Hfull. unfold frequencyBasedQueries, optimizedFrequencyBasedQueries.
  case_decide; [reflexivity|].
  assert (Hne : arr <> []) by (intros ->; auto).
  destruct (buildSegmentTree_root arr Hne) as (root & -> & Hroot). cbn [bind].
  generalize (@nil value) as results.
  induction Hfull as [|q queries Hq _ IH]; intros results; [reflexivity|].
  destruct (queryError arr q) as [e|] eqn:E.
  - by rewrite (answerQueries_invalid _ _ _ _ _ _ E),
               (answerDirectly_invalid _ _ _ _ _ E).
  - apply queryError_None in E.
    rewrite answerQueries_valid, answerDirectly_valid by assumption.
    destruct (answer_full_range arr root q Hne Hroot E Hq) as (result & -> & Hx).
    simpl. rewrite Hx. apply IH.
Qed.

Lemma whole_array_queries_agree_witness :
  frequencyBasedQueries [5; 6; 7; 5; 6; 7; 5; 6; 7] [(0, 8, 1); (0, 8, 2); (0, 8, 3)]
  = optimizedFrequencyBasedQueries [5; 6; 7; 5; 6; 7; 5; 6; 7]
      [(0, 8, 1); (0, 8, 2); (0, 8, 3)].
Proof.
  apply (whole_array_queries_agree [5; 6; 7; 5; 6; 7; 5; 6; 7]
           [(0, 8, 1); (0, 8, 2); (0, 8, 3)]).
  repeat constructor.
Defined.
